(** * Asynchronous video-generation lifecycle: page controller and API routes

    A shallow embedding of the three source files of the application

      - the client page with its [Home] component   (module [Page])
      - [app/api/generate-video/route.ts]           (module [GenerateVideoRoute])
      - [app/api/operations/[operationId]/route.ts] (module [OperationsRoute])

    together with the parts of the JavaScript runtime they rely on
    (module [Js]): strings as sequences of UTF-16 code units, [trim],
    JSON values, truthiness, property reads, exceptions, and the URI
    component coders. *)

From Stdlib Require Import NArith List String Ascii DecimalString Floats Lia.
From stdpp Require Import base option list gmap sets.

Set Warnings "-register-all".
Local Open Scope N_scope.

(* ===================================================================== *)
(** * The JavaScript runtime the sources use *)
(* ===================================================================== *)

Module Js.

(** A JavaScript string is a finite sequence of 16-bit code units. *)
Abbreviation jsstring := (list N).

(** String literals of the sources are ASCII. *)
Definition lit (s : string) : jsstring :=
  map N_of_ascii (list_ascii_of_string s).

Arguments lit : simpl never.

Definition is_empty (s : jsstring) : bool :=
  match s with [] => true | _ :: _ => false end.

(** ** [String.prototype.trim]

    ECMAScript's WhiteSpace and LineTerminator productions: TAB, LF, VT,
    FF, CR, SP, NBSP, the category Zs (U+1680, U+2000..U+200A, U+202F,
    U+205F, U+3000), LS, PS and the byte order mark. *)
Definition isWhiteSpace (c : N) : bool :=
  (9 <=? c) && (c <=? 13)
  || (c =? 32) || (c =? 160) || (c =? 5760)
  || (8192 <=? c) && (c <=? 8202)
  || (c =? 8232) || (c =? 8233) || (c =? 8239) || (c =? 8287)
  || (c =? 12288) || (c =? 65279).

Fixpoint trimStart (s : jsstring) : jsstring :=
  match s with
  | [] => []
  | c :: s' => if isWhiteSpace c then trimStart s' else s
  end.

Definition trimEnd (s : jsstring) : jsstring := rev (trimStart (rev s)).

Definition trim (s : jsstring) : jsstring := trimEnd (trimStart s).

(** ** Exceptions

    What a [catch] clause of the sources can tell about the value it
    caught: [error instanceof Error], and then [error.message]. *)
Inductive Thrown :=
| ErrorObject (message : jsstring)
| NonError.

Inductive Completion (A : Type) :=
| Normal (a : A)
| Throw (e : Thrown).
Arguments Normal {A} a.
Arguments Throw {A} e.

Definition bind {A B} (c : Completion A) (k : A -> Completion B) : Completion B :=
  match c with
  | Normal a => k a
  | Throw e => Throw e
  end.

(** [error instanceof Error ? error.message : fallback] *)
Definition messageOr (fallback : jsstring) (e : Thrown) : jsstring :=
  match e with
  | ErrorObject m => m
  | NonError => fallback
  end.

(** ** JSON values, as [response.json()] delivers them *)
Inductive Json :=
| JNull
| JBool (b : bool)
| JNum (x : float)
| JStr (s : jsstring)
| JArr (items : list Json)
| JObj (fields : list (jsstring * Json)).

(** The own properties of an object made by [JSON.parse], one entry per
    key. *)
Fixpoint lookupField (k : jsstring) (fields : list (jsstring * Json)) : option Json :=
  match fields with
  | [] => None
  | (k', v) :: rest => if decide (k = k') then Some v else lookupField k rest
  end.

(** What the engine supplies and the sources only pass through: the
    message texts of the built-in errors and the string conversion of a
    value that is not already a string. *)
Record Engine := {
  TypeError_message : jsstring;
  URIError_message : jsstring;
  ToString : Json -> jsstring
}.

(** A property read [v.k]; [None] is [undefined].  Reading a property of
    [null] throws a TypeError.  The sources read the keys [done] and
    [error] only, which no prototype defines, so anything but an object
    answers [undefined]. *)
Definition property (E : Engine) (v : Json) (k : jsstring) : Completion (option Json) :=
  match v with
  | JNull => Throw (ErrorObject (TypeError_message E))
  | JObj fields => Normal (lookupField k fields)
  | _ => Normal None
  end.

(** Truthiness, the test of [if (v)] and [Boolean(v)]. *)
Definition ToBoolean (v : option Json) : bool :=
  match v with
  | None => false
  | Some JNull => false
  | Some (JBool b) => b
  | Some (JNum x) => negb (PrimFloat.eqb x 0%float || PrimFloat.is_nan x)
  | Some (JStr s) => negb (is_empty s)
  | Some (JArr _) => true
  | Some (JObj _) => true
  end.

(** Decimal digits of a non-negative integer, as a template literal
    prints an HTTP status. *)
Definition showNat (n : nat) : jsstring :=
  lit (NilEmpty.string_of_uint (Nat.to_uint n)).

(** ** The string conversion of a JSON value

    [Number::toString] in radix 10 writes the shortest decimal that reads
    back as the number, the closest to it among the shortest, in the
    layout of the number's magnitude; an array is converted by joining
    its elements with commas, [null] elements as the empty string; a
    plain object is "[object Object]". *)

(** [a * 2 ^ b * 10 ^ c], with [b] and [c] of either sign. *)
Record Scaled := { digits_of : Z; exp2 : Z; exp10 : Z }.

Definition compareScaled (u v : Scaled) : comparison :=
  (digits_of u * 2 ^ Z.max (exp2 u - exp2 v) 0 * 10 ^ Z.max (exp10 u - exp10 v) 0
   ?= digits_of v * 2 ^ Z.max (exp2 v - exp2 u) 0 * 10 ^ Z.max (exp10 v - exp10 u) 0)%Z.

Definition leScaled (u v : Scaled) : bool :=
  match compareScaled u v with Gt => false | _ => true end.
Definition ltScaled (u v : Scaled) : bool :=
  match compareScaled u v with Lt => true | _ => false end.

(** The greatest [t] from [hi] downwards, [fuel] steps at most, with
    [10 ^ t <= x]. *)
Fixpoint decade (fuel : nat) (hi : Z) (x : Scaled) : Z :=
  match fuel with
  | O => hi
  | S fuel' =>
      if leScaled {| digits_of := 1; exp2 := 0; exp10 := hi |} x then hi
      else decade fuel' (hi - 1)%Z x
  end.

(** [floor (x / 10 ^ q)] for [x = a * 2 ^ b]. *)
Definition floorScaled (a b q : Z) : Z :=
  ((a * 2 ^ Z.max b 0 * 10 ^ Z.max (- q) 0) / (2 ^ Z.max (- b) 0 * 10 ^ Z.max q 0))%Z.

(** The digits [s] and the exponent [n] of the decimal of [k] digits
    closest to the double [m * 2 ^ e], when it reads back as that double;
    [t] is the decade of the double, [10 ^ t <= m * 2 ^ e < 10 ^ (t + 1)].
    A decimal reads back as the double when it lies between the midpoints
    to the neighbouring doubles, the midpoints included when [m] is
    even. *)
Definition shortestOf (m e t k : Z) : option (Z * Z) :=
  let narrow := (m =? 2 ^ 52)%Z && (-1074 <? e)%Z in
  let lo := {| digits_of := 4 * m - (if narrow then 1 else 2); exp2 := e - 2; exp10 := 0 |} in
  let hi := {| digits_of := 4 * m + 2; exp2 := e - 2; exp10 := 0 |} in
  let inside (v : Scaled) :=
    if Z.even m then leScaled lo v && leScaled v hi else ltScaled lo v && ltScaled v hi in
  let q := (t - k + 1)%Z in
  let below := floorScaled m e q in
  let down := {| digits_of := below; exp2 := 0; exp10 := q |} in
  let up := if (below + 1 <? 10 ^ k)%Z
            then {| digits_of := below + 1; exp2 := 0; exp10 := q |}
            else {| digits_of := 10 ^ (k - 1); exp2 := 0; exp10 := q + 1 |} in
  let answer (v : Scaled) := Some (digits_of v, exp10 v + k)%Z in
  let twice := {| digits_of := 2 * m; exp2 := e; exp10 := 0 |} in
  let sum := {| digits_of := 2 * below + 1; exp2 := 0; exp10 := q |} in
  match inside down, inside up with
  | false, false => None
  | true, false => answer down
  | false, true => answer up
  | true, true =>
      match compareScaled twice sum with
      | Lt => answer down
      | Gt => answer up
      | Eq => if Z.even (digits_of down) then answer down else answer up
      end
  end.

Fixpoint shortest (fuel : nat) (m e t k : Z) : Z * Z :=
  match fuel with
  | O => (m, 0%Z)
  | S fuel' =>
      match shortestOf m e t k with
      | Some r => r
      | None => shortest fuel' m e t (k + 1)%Z
      end
  end.

(** Decimal digits of an integer that is not negative. *)
Definition showZ (z : Z) : jsstring :=
  lit (NilEmpty.string_of_uint (N.to_uint (Z.to_N z))).

Definition zeros (n : Z) : jsstring := repeat 48 (Z.to_nat n).

(** [Number::toString(x, 10)].  With [s] the [k] digits and [n] such
    that the decimal is [s * 10 ^ (n - k)]: plain digits when the decimal
    point falls within 21 places, leading zeros down to six places after
    the point, the exponent form otherwise.  Seventeen digits always read
    back as the double, so [shortest] finds its answer; the first decade
    tried is above the double's, by the bit length of [m * 2 ^ e]. *)
Definition Number_toString (x : float) : jsstring :=
  match Prim2SF x with
  | S754_nan => lit "NaN"
  | S754_zero _ => lit "0"
  | S754_infinity sign => (if sign then lit "-" else []) ++ lit "Infinity"
  | S754_finite sign m e =>
      let x := {| digits_of := Zpos m; exp2 := e; exp10 := 0 |} in
      let t := decade 4 ((e + Z.log2 (Zpos m) + 1) * 30103 / 100000 + 1)%Z x in
      let (s, n) := shortest 17 (Zpos m) e t 1 in
      let digits := showZ s in
      let k := Z.of_nat (length digits) in
      (if sign then lit "-" else []) ++
      (if (k <=? n)%Z && (n <=? 21)%Z then digits ++ zeros (n - k)
       else if (0 <? n)%Z && (n <=? 21)%Z
            then firstn (Z.to_nat n) digits ++ lit "." ++ skipn (Z.to_nat n) digits
       else if (-6 <? n)%Z && (n <=? 0)%Z then lit "0." ++ zeros (- n) ++ digits
       else
         let exponent := (if (n - 1 <? 0)%Z then lit "e-" else lit "e+") ++ showZ (Z.abs (n - 1)) in
         match digits with
         | [d] => [d] ++ exponent
         | d :: rest => d :: lit "." ++ rest ++ exponent
         | [] => exponent
         end)
  end.

(** [Array.prototype.join] on strings already converted. *)
Fixpoint joinWith (sep : jsstring) (parts : list jsstring) : jsstring :=
  match parts with
  | [] => []
  | [p] => p
  | p :: rest => p ++ sep ++ joinWith sep rest
  end.

(** [String(v)] for a value of [JSON.parse]. *)
Fixpoint ToString_value (v : Json) : jsstring :=
  match v with
  | JNull => lit "null"
  | JBool true => lit "true"
  | JBool false => lit "false"
  | JNum x => Number_toString x
  | JStr s => s
  | JArr items =>
      joinWith (lit ",")
        ((fix each (items : list Json) : list jsstring :=
            match items with
            | [] => []
            | JNull :: rest => [] :: each rest
            | item :: rest => ToString_value item :: each rest
            end) items)
  | JObj _ => lit "[object Object]"
  end.

(** ** [encodeURIComponent]

    Code units of the unescaped set are kept; any other code point is
    written as the percent-escaped octets of its UTF-8 form.  An unpaired
    surrogate throws a URIError ([None]). *)
Definition isUnescaped (c : N) : bool :=
  (65 <=? c) && (c <=? 90) || (97 <=? c) && (c <=? 122)
  || (48 <=? c) && (c <=? 57)
  || (c =? 95) || (c =? 45) || (c =? 46) || (c =? 33) || (c =? 126)
  || (c =? 42) || (c =? 39) || (c =? 40) || (c =? 41).

Definition isLeadSurrogate (c : N) : bool := (55296 <=? c) && (c <=? 56319).
Definition isTrailSurrogate (c : N) : bool := (56320 <=? c) && (c <=? 57343).

Definition surrogatePair (lead trail : N) : N :=
  (lead - 55296) * 1024 + (trail - 56320) + 65536.

Definition utf8 (cp : N) : list N :=
  if cp <? 128 then [cp]
  else if cp <? 2048 then
    [N.lor 192 (N.shiftr cp 6); N.lor 128 (N.land cp 63)]
  else if cp <? 65536 then
    [N.lor 224 (N.shiftr cp 12); N.lor 128 (N.land (N.shiftr cp 6) 63);
     N.lor 128 (N.land cp 63)]
  else
    [N.lor 240 (N.shiftr cp 18); N.lor 128 (N.land (N.shiftr cp 12) 63);
     N.lor 128 (N.land (N.shiftr cp 6) 63); N.lor 128 (N.land cp 63)].

Definition hexDigit (n : N) : N := if n <? 10 then 48 + n else 55 + n.

Definition percent (octet : N) : jsstring :=
  [37; hexDigit (N.shiftr octet 4); hexDigit (N.land octet 15)].

Definition escape (cp : N) : jsstring := concat (map percent (utf8 cp)).

Fixpoint encodeURIComponent (s : jsstring) : option jsstring :=
  match s with
  | [] => Some []
  | c :: rest =>
      if isUnescaped c then cons c <$> encodeURIComponent rest
      else if isTrailSurrogate c then None
      else if isLeadSurrogate c then
        match rest with
        | c2 :: rest' =>
            if isTrailSurrogate c2
            then app (escape (surrogatePair c c2)) <$> encodeURIComponent rest'
            else None
        | [] => None
        end
      else app (escape c) <$> encodeURIComponent rest
  end.

(** ** [decodeURIComponent]

    Every [%XX] must be a hexadecimal octet; octets of 128 and above must
    spell a well-formed UTF-8 sequence, which becomes one code point (and
    one or two code units).  Anything else throws a URIError ([None]).
    The escapes are read first ([unescape]) and the octets decoded after
    ([decodeOctets]); the built-in does both in one pass and fails on the
    same inputs. *)
Definition hexValue (c : N) : option N :=
  if (48 <=? c) && (c <=? 57) then Some (c - 48)
  else if (65 <=? c) && (c <=? 70) then Some (c - 55)
  else if (97 <=? c) && (c <=? 102) then Some (c - 87)
  else None.

Inductive Token :=
| Unit (c : N)
| Octet (b : N).

Fixpoint unescape (s : jsstring) : option (list Token) :=
  match s with
  | [] => Some []
  | c :: rest =>
      if c =? 37 then
        match rest with
        | h :: l :: rest' =>
            match hexValue h, hexValue l with
            | Some x, Some y => cons (Octet (16 * x + y)) <$> unescape rest'
            | _, _ => None
            end
        | _ => None
        end
      else cons (Unit c) <$> unescape rest
  end.

Definition continuation (t : Token) : option N :=
  match t with
  | Octet b => if (128 <=? b) && (b <=? 191) then Some (N.land b 63) else None
  | Unit _ => None
  end.

Definition utf16 (cp : N) : jsstring :=
  if cp <? 65536 then [cp]
  else [55296 + N.shiftr (cp - 65536) 10; 56320 + N.land (cp - 65536) 1023].

Fixpoint decodeOctets (ts : list Token) : option jsstring :=
  match ts with
  | [] => Some []
  | Unit c :: rest => cons c <$> decodeOctets rest
  | Octet b :: rest =>
      if b <? 128 then cons b <$> decodeOctets rest
      else if b <? 192 then None
      else if b <? 224 then
        match rest with
        | t1 :: rest' =>
            match continuation t1 with
            | Some x1 =>
                let cp := N.land b 31 * 64 + x1 in
                if 128 <=? cp then app (utf16 cp) <$> decodeOctets rest' else None
            | None => None
            end
        | _ => None
        end
      else if b <? 240 then
        match rest with
        | t1 :: t2 :: rest' =>
            match continuation t1, continuation t2 with
            | Some x1, Some x2 =>
                let cp := N.land b 15 * 4096 + x1 * 64 + x2 in
                if (2048 <=? cp) && negb ((55296 <=? cp) && (cp <=? 57343))
                then app (utf16 cp) <$> decodeOctets rest' else None
            | _, _ => None
            end
        | _ => None
        end
      else if b <? 248 then
        match rest with
        | t1 :: t2 :: t3 :: rest' =>
            match continuation t1, continuation t2, continuation t3 with
            | Some x1, Some x2, Some x3 =>
                let cp := N.land b 7 * 262144 + x1 * 4096 + x2 * 64 + x3 in
                if (65536 <=? cp) && (cp <=? 1114111)
                then app (utf16 cp) <$> decodeOctets rest' else None
            | _, _, _ => None
            end
        | _ => None
        end
      else None
  end.

Definition decodeURIComponent (s : jsstring) : option jsstring :=
  unescape s ≫= decodeOctets.

(** A built-in that fails throws the engine's URIError. *)
Definition orURIError {A} (E : Engine) (r : option A) : Completion A :=
  match r with
  | Some a => Normal a
  | None => Throw (ErrorObject (URIError_message E))
  end.

(** ** [String.prototype.startsWith] *)
Fixpoint startsWith (s searchString : jsstring) : bool :=
  match searchString with
  | [] => true
  | p :: searchString' =>
      match s with
      | [] => false
      | c :: s' => (c =? p) && startsWith s' searchString'
      end
  end.

(** A string whose code units are all 16 bits wide, as every JavaScript
    string is. *)
Definition wellFormed (s : jsstring) : Prop := Forall (fun c => c < 65536) s.

(** What [encodeURIComponent] writes: unreserved characters and the
    percent sign. *)
Definition urlSafe (c : N) : Prop := isUnescaped c = true \/ c = 37.

End Js.

Import Js.

(* ===================================================================== *)
(** * app/api/generate-video/route.ts *)
(* ===================================================================== *)

Module GenerateVideoRoute.

(** [GenerateVideoResponse], the tagged union of [lib/googleGenai] that
    the page declares as well. *)
Inductive GenerateVideoResponse :=
| GenerateVideoStub (message : jsstring)
| GenerateVideoSuccess (operationId : jsstring) (raw : Json).

(** What [NextResponse.json(value, { status })] carries. *)
Inductive Body :=
| ErrorBody (error : jsstring)
| ResultBody (result : GenerateVideoResponse).

Record Response := { status : nat; body : Body }.

Section Route.

(** [ReferenceImagePayload] is declared in [lib/googleGenai]; the route
    does not look inside it. *)
Context {ReferenceImagePayload : Type}.

Record RequestPayload := {
  prompt : option jsstring;
  referenceImages : option (list ReferenceImagePayload)
}.

(** The arguments of one call of the provider entry point. *)
Record ProviderCall := {
  call_prompt : jsstring;
  call_referenceImages : list ReferenceImagePayload
}.

(** [generateVideoWithGoogle] of [lib/googleGenai]: what the awaited
    call gives for its arguments. *)
Variable generateVideoWithGoogle : ProviderCall -> Completion GenerateVideoResponse.

(** The [catch] clause of [POST]. *)
Definition POST_catch (e : Thrown) : Response :=
  {| status := 500;
     body := ErrorBody
               (messageOr (lit "Something went wrong generating the video.") e) |}.

(** [POST(request)], given what [await request.json()] gives: the
    response, and the calls made to the provider on the way. *)
Definition POST (request_json : Completion RequestPayload)
  : Response * list ProviderCall :=
  match request_json with
  | Throw e => (POST_catch e, [])
  | Normal body =>
      let prompt := trim (default [] (prompt body)) in
      if is_empty prompt then
        ({| status := 400; body := ErrorBody (lit "Prompt is required.") |}, [])
      else
        let referenceImages := take 4 (default [] (referenceImages body)) in
        if Nat.eqb (length referenceImages) 0 then
          ({| status := 400;
              body := ErrorBody (lit "At least one reference image is required.") |},
           [])
        else
          let call := {| call_prompt := prompt;
                         call_referenceImages := referenceImages |} in
          match generateVideoWithGoogle call with
          | Normal result => ({| status := 200; body := ResultBody result |}, [call])
          | Throw e => (POST_catch e, [call])
          end
  end.

End Route.

(** A provider for the examples: the credential is missing and the
    library answers with the stub. *)
Definition stubProvider {ReferenceImagePayload : Type}
    (call : @ProviderCall ReferenceImagePayload) : Completion GenerateVideoResponse :=
  Normal (GenerateVideoStub (lit "GOOGLE_API_KEY is not set.")).

End GenerateVideoRoute.

(* ===================================================================== *)
(** * app/api/operations/[operationId]/route.ts *)
(* ===================================================================== *)

Module OperationsRoute.

Inductive Body :=
| ErrorBody (error : jsstring)
| StatusBody (status : Json).

Record Response := { status : nat; body : Body }.

Section Route.

Variable E : Engine.

(** [getOperationStatus] of [lib/googleGenai]: what the awaited lookup
    gives for a handle. *)
Variable getOperationStatus : jsstring -> Completion Json.

Definition GET_catch (e : Thrown) : Response :=
  {| status := 500;
     body := ErrorBody
               (messageOr (lit "Something went wrong querying operation status.") e) |}.

(** [GET(_request, { params })], given what [await params] gives: the
    response, and the handles looked up at the provider on the way. *)
Definition GET (params : Completion jsstring) : Response * list jsstring :=
  match params with
  | Throw e => (GET_catch e, [])
  | Normal operationId =>
      if is_empty operationId then
        ({| status := 400; body := ErrorBody (lit "operationId is required") |}, [])
      else
        match orURIError E (decodeURIComponent operationId) with
        | Throw e => (GET_catch e, [])
        | Normal decodedId =>
            match getOperationStatus decodedId with
            | Normal status => ({| status := 200; body := StatusBody status |}, [decodedId])
            | Throw e => (GET_catch e, [decodedId])
            end
        end
  end.

End Route.

(** A provider for the examples: every operation is finished. *)
Definition finishedProvider (operationId : jsstring) : Completion Json :=
  Normal (JObj [(lit "done", JBool true)]).

End OperationsRoute.

(* ===================================================================== *)
(** * The client page: the [Home] component *)
(* ===================================================================== *)

Module Page.

(** [ReferenceImageInput]; its [file] field, a browser [File] that only
    [handleImageChange] writes and nothing reads, is left out. *)
Record ReferenceImageInput := {
  id : nat;
  name : jsstring;
  dataUrl : option jsstring;
  error : option jsstring
}.

Inductive GenerateVideoResponse :=
| GenerateVideoStub (message : jsstring)
| GenerateVideoSuccess (operationId : jsstring) (raw : Json).

Definition MAX_REFERENCE_IMAGES : nat := 2.

(** The values held by the [useState] hooks of [Home]. *)
Record State := {
  prompt : jsstring;
  images : list ReferenceImageInput;
  submitting : bool;
  errorMessage : option jsstring;
  stubMessage : option jsstring;
  operationId : option jsstring;
  operationStatus : Json;
  polling : bool
}.

(** One entry of the [referenceImages] array that [handleSubmit] posts. *)
Record ReferenceImage := {
  ref_name : jsstring;
  ref_dataUrl : jsstring
}.

(** The object [handleSubmit] passes to [JSON.stringify]. *)
Record SubmitBody := {
  body_prompt : jsstring;
  body_referenceImages : list ReferenceImage
}.

(** A call of [fetch]. *)
Inductive NetCall :=
| GetStatus (url : jsstring)
| PostGenerateVideo (body : SubmitBody).

Definition isStatusCall (c : NetCall) : bool :=
  match c with GetStatus _ => true | PostGenerateVideo _ => false end.

(** The component in its browser: the React state, the timer reference,
    the intervals the browser holds active (each with the [operationId]
    its [poll] closure captured), the fetches not yet settled, and every
    call of [fetch] made so far, latest first.  Interval handles are the
    browser's positive integers. *)
Record World := {
  state : State;
  pollTimerRef : option positive;
  intervals : gmap positive jsstring;
  nextHandle : positive;
  statusFetches : gmap nat jsstring;
  submitFetches : gmap nat SubmitBody;
  nextRequest : nat;
  calls : list NetCall
}.

(** ** State setters and browser calls *)

Definition withState (f : State -> State) (w : World) : World :=
  {| state := f (state w); pollTimerRef := pollTimerRef w;
     intervals := intervals w; nextHandle := nextHandle w;
     statusFetches := statusFetches w; submitFetches := submitFetches w;
     nextRequest := nextRequest w; calls := calls w |}.

Definition setPrompt (v : jsstring) : World -> World :=
  withState (fun s =>
    {| prompt := v; images := images s; submitting := submitting s;
       errorMessage := errorMessage s; stubMessage := stubMessage s;
       operationId := operationId s; operationStatus := operationStatus s;
       polling := polling s |}).

Definition setImages (v : list ReferenceImageInput) : World -> World :=
  withState (fun s =>
    {| prompt := prompt s; images := v; submitting := submitting s;
       errorMessage := errorMessage s; stubMessage := stubMessage s;
       operationId := operationId s; operationStatus := operationStatus s;
       polling := polling s |}).

Definition setSubmitting (v : bool) : World -> World :=
  withState (fun s =>
    {| prompt := prompt s; images := images s; submitting := v;
       errorMessage := errorMessage s; stubMessage := stubMessage s;
       operationId := operationId s; operationStatus := operationStatus s;
       polling := polling s |}).

Definition setErrorMessage (v : option jsstring) : World -> World :=
  withState (fun s =>
    {| prompt := prompt s; images := images s; submitting := submitting s;
       errorMessage := v; stubMessage := stubMessage s;
       operationId := operationId s; operationStatus := operationStatus s;
       polling := polling s |}).

Definition setStubMessage (v : option jsstring) : World -> World :=
  withState (fun s =>
    {| prompt := prompt s; images := images s; submitting := submitting s;
       errorMessage := errorMessage s; stubMessage := v;
       operationId := operationId s; operationStatus := operationStatus s;
       polling := polling s |}).

Definition setOperationId (v : option jsstring) : World -> World :=
  withState (fun s =>
    {| prompt := prompt s; images := images s; submitting := submitting s;
       errorMessage := errorMessage s; stubMessage := stubMessage s;
       operationId := v; operationStatus := operationStatus s;
       polling := polling s |}).

Definition setOperationStatus (v : Json) : World -> World :=
  withState (fun s =>
    {| prompt := prompt s; images := images s; submitting := submitting s;
       errorMessage := errorMessage s; stubMessage := stubMessage s;
       operationId := operationId s; operationStatus := v;
       polling := polling s |}).

Definition setPolling (v : bool) : World -> World :=
  withState (fun s =>
    {| prompt := prompt s; images := images s; submitting := submitting s;
       errorMessage := errorMessage s; stubMessage := stubMessage s;
       operationId := operationId s; operationStatus := operationStatus s;
       polling := v |}).

(** [pollTimerRef.current = v] *)
Definition setPollTimerRef (v : option positive) (w : World) : World :=
  {| state := state w; pollTimerRef := v;
     intervals := intervals w; nextHandle := nextHandle w;
     statusFetches := statusFetches w; submitFetches := submitFetches w;
     nextRequest := nextRequest w; calls := calls w |}.

(** [clearInterval(h)]: no effect when [h] is not active. *)
Definition clearInterval (h : positive) (w : World) : World :=
  {| state := state w; pollTimerRef := pollTimerRef w;
     intervals := delete h (intervals w); nextHandle := nextHandle w;
     statusFetches := statusFetches w; submitFetches := submitFetches w;
     nextRequest := nextRequest w; calls := calls w |}.

(** [setInterval(poll, 5000)] for the [poll] closure over [operationId]:
    the fresh handle and the world that holds the interval. *)
Definition setInterval (operationId : jsstring) (w : World) : positive * World :=
  (nextHandle w,
   {| state := state w; pollTimerRef := pollTimerRef w;
      intervals := <[nextHandle w := operationId]> (intervals w);
      nextHandle := Pos.succ (nextHandle w);
      statusFetches := statusFetches w; submitFetches := submitFetches w;
      nextRequest := nextRequest w; calls := calls w |}).

(** [fetch(url)] of a status: the request stays open until it settles. *)
Definition fetchStatus (url : jsstring) (w : World) : World :=
  {| state := state w; pollTimerRef := pollTimerRef w;
     intervals := intervals w; nextHandle := nextHandle w;
     statusFetches := <[nextRequest w := url]> (statusFetches w);
     submitFetches := submitFetches w;
     nextRequest := S (nextRequest w); calls := GetStatus url :: calls w |}.

(** [fetch('/api/generate-video', { method: 'POST', ... body })] *)
Definition fetchSubmit (body : SubmitBody) (w : World) : World :=
  {| state := state w; pollTimerRef := pollTimerRef w;
     intervals := intervals w; nextHandle := nextHandle w;
     statusFetches := statusFetches w;
     submitFetches := <[nextRequest w := body]> (submitFetches w);
     nextRequest := S (nextRequest w);
     calls := PostGenerateVideo body :: calls w |}.

(** A fetch that settles leaves the open requests. *)
Definition settleStatus (r : nat) (w : World) : World :=
  {| state := state w; pollTimerRef := pollTimerRef w;
     intervals := intervals w; nextHandle := nextHandle w;
     statusFetches := delete r (statusFetches w);
     submitFetches := submitFetches w;
     nextRequest := nextRequest w; calls := calls w |}.

Definition settleSubmit (r : nat) (w : World) : World :=
  {| state := state w; pollTimerRef := pollTimerRef w;
     intervals := intervals w; nextHandle := nextHandle w;
     statusFetches := statusFetches w;
     submitFetches := delete r (submitFetches w);
     nextRequest := nextRequest w; calls := calls w |}.

(** ** How a fetch settles *)

(** [response.ok] *)
Definition ok (status : nat) : bool := Nat.leb 200 status && Nat.leb status 299.

(** The status fetch of [poll]: it rejects, or resolves to a response
    with its [status] and with what [response.json()] gives. *)
Inductive StatusReply :=
| StatusRejected (e : Thrown)
| StatusResponse (status : nat) (json : Completion Json).

(** The fetch of [handleSubmit]: it rejects, or resolves to a response
    that is not [ok] (with what [response.json()] gives for the detail),
    or to one that is [ok] (with what [response.json()] gives, of the
    declared type [GenerateVideoResponse]). *)
Inductive SubmitReply :=
| SubmitRejected (e : Thrown)
| SubmitNotOk (status : nat) (detail : Completion Json)
| SubmitOk (result : Completion GenerateVideoResponse).

Section Home.

Variable E : Engine.

(** ** The timer guard

    [if (pollTimerRef.current) { clearInterval(pollTimerRef.current);
    pollTimerRef.current = null; }], as written in the effect and twice
    in [poll].  A handle is a positive integer and so truthy. *)
Definition clearPollTimer (w : World) : World :=
  match pollTimerRef w with
  | Some h => setPollTimerRef None (clearInterval h w)
  | None => w
  end.

(** The cleanup of the mount effect: [if (pollTimerRef.current)
    clearInterval(pollTimerRef.current)]; the reference is kept. *)
Definition unmount (w : World) : World :=
  match pollTimerRef w with
  | Some h => clearInterval h w
  | None => w
  end.

(** ** [poll] *)

Definition statusUrl (encoded : jsstring) : jsstring :=
  lit "/api/operations/" ++ encoded.

(** The [catch] clause of [poll]. *)
Definition poll_catch (e : Thrown) (w : World) : World :=
  clearPollTimer
    (setErrorMessage (Some (messageOr (lit "Failed to poll operation.") e))
       (setPolling false w)).

(** [poll()] up to its first [await]: the status fetch is issued, unless
    building the URL throws. *)
Definition poll (operationId : jsstring) (w : World) : World :=
  match orURIError E (encodeURIComponent operationId) with
  | Normal encoded => fetchStatus (statusUrl encoded) w
  | Throw e => poll_catch e w
  end.

(** [poll()] from the moment its fetch settles. *)
Definition poll_resume (reply : StatusReply) (w : World) : World :=
  match reply with
  | StatusRejected e => poll_catch e w
  | StatusResponse status json =>
      if negb (ok status) then
        poll_catch (ErrorObject (lit "Polling failed with " ++ showNat status)) w
      else
        match json with
        | Throw e => poll_catch e w
        | Normal status =>
            let w := setOperationStatus status w in
            match property E status (lit "done") with
            | Throw e => poll_catch e w
            | Normal done =>
                if ToBoolean done then setPolling false (clearPollTimer w) else w
            end
        end
  end.

(** ** The effect on [operationId] *)

Definition effect (w : World) : World :=
  match operationId (state w) with
  | None => clearPollTimer w
  | Some operationId =>
      if is_empty operationId then clearPollTimer w
      else
        let w := setPolling true w in
        let w := poll operationId w in
        let '(h, w) := setInterval operationId w in
        setPollTimerRef (Some h) w
  end.

(** React commits the state a handler has set and runs the effect when
    its dependency [operationId] differs from the one last committed.
    The effect is taken to run with the commit, before the browser
    delivers the next event. *)
Definition commit (committed : option jsstring) (w : World) : World :=
  if decide (operationId (state w) = committed) then w else effect w.

(** ** [handleSubmit] *)

Definition handleSubmit_catch (e : Thrown) (w : World) : World :=
  setErrorMessage (Some (messageOr (lit "Something went wrong.") e)) w.

Definition handleSubmit_finally (w : World) : World := setSubmitting false w.

(** [Boolean(image.dataUrl)] *)
Definition hasDataUrl (image : ReferenceImageInput) : bool :=
  match dataUrl image with
  | Some url => negb (is_empty url)
  | None => false
  end.

Definition referenceImagesOf (images : list ReferenceImageInput) : list ReferenceImage :=
  map (fun image => {| ref_name := name image;
                       ref_dataUrl := default [] (dataUrl image) |})
      (filter (fun image => hasDataUrl image = true) images).

(** [handleSubmit(event)] up to its first [await]; [prompt] and [images]
    are those of the render the handler belongs to. *)
Definition handleSubmit (w : World) : World :=
  let prompt := prompt (state w) in
  let images := images (state w) in
  let w := setSubmitting true w in
  let w := setErrorMessage None w in
  let w := setStubMessage None w in
  let w := setOperationId None w in
  let w := setOperationStatus JNull w in
  if is_empty (trim prompt) then
    handleSubmit_finally
      (handleSubmit_catch (ErrorObject (lit "Prompt is required.")) w)
  else
    let referenceImages := referenceImagesOf images in
    if Nat.eqb (length referenceImages) 0 then
      handleSubmit_finally
        (handleSubmit_catch
           (ErrorObject (lit "At least one reference image is required.")) w)
    else
      fetchSubmit {| body_prompt := prompt;
                     body_referenceImages := referenceImages |} w.

(** [detail?.error ?? `Request failed with ${response.status}`], as
    [new Error(message)] keeps it. *)
Definition failureMessage (status : nat) (detail : Json) : jsstring :=
  let fallback := lit "Request failed with " ++ showNat status in
  match detail with
  | JObj fields =>
      match lookupField (lit "error") fields with
      | None => fallback
      | Some JNull => fallback
      | Some (JStr s) => s
      | Some v => ToString E v
      end
  | _ => fallback
  end.

(** [handleSubmit] from the moment its fetch settles. *)
Definition handleSubmit_resume (reply : SubmitReply) (w : World) : World :=
  handleSubmit_finally
    match reply with
    | SubmitRejected e => handleSubmit_catch e w
    | SubmitNotOk status detail =>
        let detail := match detail with Normal d => d | Throw _ => JObj [] end in
        handleSubmit_catch (ErrorObject (failureMessage status detail)) w
    | SubmitOk (Throw e) => handleSubmit_catch e w
    | SubmitOk (Normal (GenerateVideoStub message)) =>
        setStubMessage (Some message) w
    | SubmitOk (Normal (GenerateVideoSuccess operationId raw)) =>
        setOperationStatus raw (setOperationId (Some operationId) w)
    end.

(** A form submission, to the end of the commit that follows the
    handler's first [await]. *)
Definition submit (w : World) : World :=
  commit (operationId (state w)) (handleSubmit w).

(** ** The component as a transition system

    What can happen to the mounted component: the user edits the prompt
    or the images, the form is submitted, an interval elapses, a fetch
    settles.  [ChangeImages] stands for any outcome of
    [handleImageChange] and [resetImage], which only call [setImages].
    The submit button is disabled while [submitting] is set. *)
Inductive Event :=
| ChangePrompt (value : jsstring)
| ChangeImages (value : list ReferenceImageInput)
| Submit
| SubmitSettled (request : nat) (reply : SubmitReply)
| IntervalElapsed (handle : positive)
| StatusSettled (request : nat) (reply : StatusReply).

(** One event, handled to the end of the commit that follows it; [None]
    when the event cannot happen in [w]. *)
Definition step (w : World) (ev : Event) : option World :=
  match ev with
  | ChangePrompt value => Some (setPrompt value w)
  | ChangeImages value => Some (setImages value w)
  | Submit =>
      if submitting (state w) then None else Some (submit w)
  | SubmitSettled r reply =>
      match submitFetches w !! r with
      | Some _ =>
          Some (commit (operationId (state w))
                  (handleSubmit_resume reply (settleSubmit r w)))
      | None => None
      end
  | IntervalElapsed h =>
      match intervals w !! h with
      | Some operationId => Some (poll operationId w)
      | None => None
      end
  | StatusSettled r reply =>
      match statusFetches w !! r with
      | Some _ => Some (poll_resume reply (settleStatus r w))
      | None => None
      end
  end.

Fixpoint run (w : World) (evs : list Event) : option World :=
  match evs with
  | [] => Some w
  | ev :: evs' =>
      match step w ev with
      | Some w' => run w' evs'
      | None => None
      end
  end.

(** The component after mounting: the initial values of the hooks, no
    timer, nothing fetched. *)
Definition initialImages : list ReferenceImageInput :=
  map (fun index =>
         {| id := index;
            name := lit "reference-image-" ++ showNat (index + 1);
            dataUrl := None; error := None |})
      (seq 0 MAX_REFERENCE_IMAGES).

Definition mounted : World :=
  {| state := {| prompt := []; images := initialImages; submitting := false;
                 errorMessage := None; stubMessage := None;
                 operationId := None; operationStatus := JNull;
                 polling := false |};
     pollTimerRef := None; intervals := ∅; nextHandle := 1%positive;
     statusFetches := ∅; submitFetches := ∅; nextRequest := 0%nat;
     calls := [] |}.

Definition reachable (w : World) : Prop :=
  exists evs, run mounted evs = Some w.

End Home.

(** An event that neither starts a submission nor settles one. *)
Definition idle (ev : Event) : bool :=
  match ev with
  | Submit | SubmitSettled _ _ => false
  | _ => true
  end.

(** A status fetch that fails, with the message [poll] throws or catches
    for it: the fetch rejects, or the response is not [ok]. *)
Inductive QueryFailed : StatusReply -> jsstring -> Prop :=
| QueryRejected e :
    QueryFailed (StatusRejected e) (messageOr (lit "Failed to poll operation.") e)
| QueryNotOk status json :
    ok status = false ->
    QueryFailed (StatusResponse status json) (lit "Polling failed with " ++ showNat status).

(** ** What every reachable world satisfies

    The only interval the browser holds is the one [pollTimerRef] names,
    and its closure polls the committed [operationId]. *)
Definition timerOwned (w : World) : Prop :=
  match pollTimerRef w with
  | Some h =>
      exists op, intervals w = {[h := op]} /\ operationId (state w) = Some op
  | None => intervals w = ∅
  end.

(** The submit fetch is open exactly while [submitting] is set, and then
    no [operationId] is stored. *)
Definition submissionOpen (w : World) : Prop :=
  if submitting (state w)
  then operationId (state w) = None /\ exists r body, submitFetches w = {[r := body]}
  else submitFetches w = ∅.

(** Request numbers from [nextRequest] on are unused. *)
Definition requestsFresh (w : World) : Prop :=
  forall r, (nextRequest w <= r)%nat -> statusFetches w !! r = None.

Record Inv (w : World) : Prop := {
  inv_timer : timerOwned w;
  inv_submission : submissionOpen w;
  inv_fresh : requestsFresh w
}.

(** The handler's first part either fails validation, sets the error and
    issues nothing, or issues the one POST. *)
Inductive SubmitStarted (w w' : World) : Prop :=
| SubmitInvalid message :
    errorMessage (state w') = Some message ->
    submitting (state w') = false ->
    submitFetches w' = submitFetches w ->
    nextRequest w' = nextRequest w ->
    calls w' = calls w ->
    SubmitStarted w w'
| SubmitIssued body :
    errorMessage (state w') = None ->
    submitting (state w') = true ->
    submitFetches w' = <[nextRequest w := body]> (submitFetches w) ->
    nextRequest w' = S (nextRequest w) ->
    calls w' = PostGenerateVideo body :: calls w ->
    SubmitStarted w w'.

(** Runs without a submission.

    Once no interval is active, events that neither start nor settle a
    submission issue no fetch and start no timer. *)
Record Idled (w w' : World) : Prop := {
  idled_intervals : intervals w' = ∅;
  idled_ref : pollTimerRef w = None -> pollTimerRef w' = None;
  idled_calls : calls w' = calls w;
  idled_operationId : operationId (state w') = operationId (state w);
  idled_submitting : submitting (state w') = submitting (state w);
  idled_stubMessage : stubMessage (state w') = stubMessage (state w);
  idled_submitFetches : submitFetches w' = submitFetches w;
  idled_polling : polling (state w) = false -> polling (state w') = false;
  idled_quiet :
    statusFetches w = ∅ ->
    statusFetches w' = ∅ /\ errorMessage (state w') = errorMessage (state w)
}.

(** ** A session, for the examples

    The message texts are V8's, the string conversion is the
    language's.  The user types a prompt, picks one
    image and submits; the proxy answers with the handle [op-123] and the
    raw status [{ done: false }]. *)
Definition v8 : Engine :=
  {| TypeError_message := lit "Cannot read properties of null (reading 'done')";
     URIError_message := lit "URI malformed";
     ToString := ToString_value |}.

Definition sunset : ReferenceImageInput :=
  {| id := 0; name := lit "sunset.png";
     dataUrl := Some (lit "data:image/png;base64,iVBORw0KGgo=");
     error := None |}.

Definition submittedSession : list Event :=
  [ ChangePrompt (lit "a sunset over the sea");
    ChangeImages [sunset];
    Submit ].

Definition deferredSession : list Event :=
  submittedSession ++
  [ SubmitSettled 0
      (SubmitOk (Normal (GenerateVideoSuccess (lit "op-123")
                           (JObj [(lit "done", JBool false)])))) ].

(** The interval elapses while the first status fetch is still open. *)
Definition overlappingSession : list Event :=
  deferredSession ++ [ IntervalElapsed 1%positive ].

(** The first status fetch settles with [{ done: true }]. *)
Definition doneSession : list Event :=
  deferredSession ++
  [ StatusSettled 1 (StatusResponse 200 (Normal (JObj [(lit "done", JBool true)]))) ].

(** The first status fetch settles with [{ done: "false" }], a string. *)
Definition truthySession : list Event :=
  deferredSession ++
  [ StatusSettled 1
      (StatusResponse 200 (Normal (JObj [(lit "done", JStr (lit "false"))]))) ].

(** The first status fetch settles with [{}]. *)
Definition pendingSession : list Event :=
  deferredSession ++ [ StatusSettled 1 (StatusResponse 200 (Normal (JObj []))) ].

(** The first status fetch rejects. *)
Definition failedSession : list Event :=
  deferredSession ++
  [ StatusSettled 1 (StatusRejected (ErrorObject (lit "Failed to fetch"))) ].

(** The proxy answers the submission with the stub. *)
Definition stubSession : list Event :=
  submittedSession ++
  [ SubmitSettled 0
      (SubmitOk (Normal (GenerateVideoStub (lit "GOOGLE_API_KEY is not set.")))) ].




(** The world a session leaves, [mounted] if it cannot happen. *)
Definition after (evs : list Event) : World :=
  default (mounted) (run v8 mounted evs).

(** ** The image slots *)

(** [name.replace(/\s+/g, '-')]: every maximal run of white space becomes
    one hyphen.  [inRun] tells that the code unit before was white space
    of a run already replaced. *)
Fixpoint replaceRuns (inRun : bool) (name : jsstring) : jsstring :=
  match name with
  | [] => []
  | c :: rest =>
      if isWhiteSpace c
      then (if inRun then replaceRuns true rest else 45 :: replaceRuns true rest)
      else c :: replaceRuns false rest
  end.

Definition sanitizeFilename (name : jsstring) : jsstring := replaceRuns false name.

(** What the page reads of a browser [File]. *)
Record File := {
  file_name : jsstring;
  file_type : jsstring
}.

(** [prev.map((image, idx) => idx === index ? f(image) : image)] *)
Definition updateSlot (index : nat)
    (f : ReferenceImageInput -> ReferenceImageInput)
    (prev : list ReferenceImageInput) : list ReferenceImageInput :=
  imap (fun idx image => if decide (idx = index) then f image else image) prev.

(** [handleImageChange(index, fileList)], as the update of [images] it
    makes; [read] is what [await readFileAsDataUrl(file)] gives, for the
    case that the handler gets that far.  [fileList] is [None] for
    [null]. *)
Definition handleImageChange (index : nat) (fileList : option (list File))
    (read : Completion jsstring)
    (prev : list ReferenceImageInput) : list ReferenceImageInput :=
  match fileList with
  | None | Some [] =>
      updateSlot index
        (fun image => {| id := id image; name := name image;
                         dataUrl := None; error := None |}) prev
  | Some (file :: _) =>
      if negb (startsWith (file_type file) (lit "image/")) then
        updateSlot index
          (fun image => {| id := id image; name := name image;
                           dataUrl := dataUrl image;
                           error := Some (lit "Please choose an image file.") |}) prev
      else
        match read with
        | Normal url =>
            updateSlot index
              (fun image => {| id := id image;
                               name := sanitizeFilename (file_name file);
                               dataUrl := Some url; error := None |}) prev
        | Throw e =>
            updateSlot index
              (fun image => {| id := id image; name := name image;
                               dataUrl := dataUrl image;
                               error := Some (messageOr (lit "Unable to read the file.") e) |})
              prev
        end
  end.

(** [resetImage(index)], as the update of [images] it makes. *)
Definition resetImage (index : nat)
    (prev : list ReferenceImageInput) : list ReferenceImageInput :=
  updateSlot index
    (fun image => {| id := id image;
                     name := lit "reference-image-" ++ showNat (index + 1);
                     dataUrl := None; error := None |}) prev.

(** [hasImages]: [images.some((image) => Boolean(image.dataUrl))] *)
Definition hasImages (images : list ReferenceImageInput) : bool :=
  existsb hasDataUrl images.

(** The [disabled] attribute of the submit button:
    [submitting || !prompt.trim() || !hasImages]. *)
Definition submitDisabled (s : State) : bool :=
  submitting s || is_empty (trim (prompt s)) || negb (hasImages (images s)).

(** ** The page as its user drives it

    What the rendered page lets happen: the textarea changes the prompt,
    a file input runs [handleImageChange] (taken at the moment it updates
    [images]), a Clear button runs [resetImage], the submit button, when
    it is not disabled, submits the form; and the browser lets an
    interval elapse or settles a fetch. *)
Inductive Gesture :=
| TypePrompt (value : jsstring)
| ChooseFiles (index : nat) (fileList : option (list File)) (read : Completion jsstring)
| ClickClear (index : nat)
| ClickGenerate
| Browser (ev : Event).

Definition eventOf (w : World) (g : Gesture) : option Event :=
  match g with
  | TypePrompt value => Some (ChangePrompt value)
  | ChooseFiles index fileList read =>
      Some (ChangeImages (handleImageChange index fileList read (images (state w))))
  | ClickClear index => Some (ChangeImages (resetImage index (images (state w))))
  | ClickGenerate => if submitDisabled (state w) then None else Some Submit
  | Browser (SubmitSettled r reply) => Some (SubmitSettled r reply)
  | Browser (IntervalElapsed h) => Some (IntervalElapsed h)
  | Browser (StatusSettled r reply) => Some (StatusSettled r reply)
  | Browser _ => None
  end.

Definition act (E : Engine) (w : World) (g : Gesture) : option World :=
  match eventOf w g with
  | Some ev => step E w ev
  | None => None
  end.

Fixpoint session (E : Engine) (w : World) (gs : list Gesture) : option World :=
  match gs with
  | [] => Some w
  | g :: gs' =>
      match act E w g with
      | Some w' => session E w' gs'
      | None => None
      end
  end.

Definition usable (E : Engine) (w : World) : Prop :=
  exists gs, session E mounted gs = Some w.

(** The bodies of the POSTs among the calls. *)
Definition posts (cs : list NetCall) : list SubmitBody :=
  omap (fun c => match c with
                 | PostGenerateVideo body => Some body
                 | GetStatus _ => None
                 end) cs.

Definition noWhiteSpace (s : jsstring) : Prop :=
  Forall (fun c => isWhiteSpace c = false) s.

(** A body as the rendered page can post it. *)
Record PostedBody (body : SubmitBody) : Prop := {
  posted_prompt : trim (body_prompt body) <> [];
  posted_some : (1 <= length (body_referenceImages body))%nat;
  posted_few : (length (body_referenceImages body) <= MAX_REFERENCE_IMAGES)%nat;
  posted_names : Forall (fun image => noWhiteSpace (ref_name image)) (body_referenceImages body);
  posted_urls : Forall (fun image => ref_dataUrl image <> []) (body_referenceImages body)
}.

(** What every world the user can bring about satisfies. *)
Record Slots (w : World) : Prop := {
  slots_ids : map id (images (state w)) = seq 0 MAX_REFERENCE_IMAGES;
  slots_names : Forall (fun image => noWhiteSpace (name image)) (images (state w));
  slots_posted : Forall PostedBody (posts (calls w))
}.

(** Results never shown together: a stub message and an operation. *)
Record Results (w : World) : Prop := {
  results_submitting : submitting (state w) = true -> stubMessage (state w) = None;
  results_exclusive : stubMessage (state w) = None \/ operationId (state w) = None
}.

Definition isSubmit (ev : Event) : bool :=
  match ev with Submit => true | _ => false end.

(** The request the proxy parses from a body the page posted. *)
Definition requestOf (body : SubmitBody) : @GenerateVideoRoute.RequestPayload ReferenceImage :=
  {| GenerateVideoRoute.prompt := Some (body_prompt body);
     GenerateVideoRoute.referenceImages := Some (body_referenceImages body) |}.

(** A user who picks an image for the second slot, then clears it. *)
Definition beach : File :=
  {| file_name := lit "my beach  photo.png"; file_type := lit "image/png" |}.

Definition notes : File :=
  {| file_name := lit "notes.txt"; file_type := lit "text/plain" |}.

Definition pickingSession : list Gesture :=
  [ TypePrompt (lit "  waves at dusk ");
    ChooseFiles 1 (Some [beach]) (Normal (lit "data:image/png;base64,AAAA"));
    ChooseFiles 1 (Some [notes]) (Normal (lit "data:text/plain;base64,AAAA"));
    ClickGenerate ].

Definition afterSession (gs : list Gesture) : World :=
  default mounted (session v8 mounted gs).

End Page.

Import Page.

(* ===================================================================== *)
(** * Facts about the runtime *)
(* ===================================================================== *)

Lemma trimStart_nil_iff (s : jsstring) :
  trimStart s = [] <-> forallb isWhiteSpace s = true.
Proof.
  induction s as [|c s IH]; simpl; [tauto|].
  destruct (isWhiteSpace c); simpl; [exact IH|].
  split; discriminate.
Qed.

Lemma trimStart_head (s : jsstring) c t :
  trimStart s = c :: t -> isWhiteSpace c = false.
Proof.
  induction s as [|d s IH]; simpl; [discriminate|].
  destruct (isWhiteSpace d) eqn:Hd; [exact IH|].
  intros [= -> _]. exact Hd.
Qed.

(** [trim] leaves nothing exactly of the strings made of white space. *)
Lemma trim_nil_iff (s : jsstring) :
  trim s = [] <-> forallb isWhiteSpace s = true.
Proof.
  rewrite <- trimStart_nil_iff. unfold trim, trimEnd. split.
  - intros H. apply (f_equal (@rev N)) in H. rewrite rev_involutive in H.
    simpl in H. apply trimStart_nil_iff in H.
    rewrite forallb_forall in H.
    destruct (trimStart s) as [|c t] eqn:Hs; [reflexivity|].
    apply trimStart_head in Hs.
    rewrite (H c) in Hs; [discriminate|].
    apply in_rev. rewrite rev_involutive. left. reflexivity.
  - intros ->. reflexivity.
Qed.

Example trim_example : trim (lit "  a sunset  ") = lit "a sunset".
Proof. vm_compute. reflexivity. Qed.

Example trim_no_break_space : trim [160; 97; 8232; 65279] = [97].
Proof. vm_compute. reflexivity. Qed.

(** The URI coders on known values. *)
Example encodeURIComponent_unreserved :
  encodeURIComponent (lit "op-123") = Some (lit "op-123").
Proof. vm_compute. reflexivity. Qed.

Example encodeURIComponent_path :
  encodeURIComponent (lit "operations/abc 1") = Some (lit "operations%2Fabc%201").
Proof. vm_compute. reflexivity. Qed.

Example encodeURIComponent_astral :
  encodeURIComponent [233; 55357; 56832] = Some (lit "%C3%A9%F0%9F%98%80").
Proof. vm_compute. reflexivity. Qed.

Example encodeURIComponent_lone_surrogate :
  encodeURIComponent [97; 55357] = None /\ encodeURIComponent [56832; 97] = None.
Proof. vm_compute. split; reflexivity. Qed.

Example decodeURIComponent_path :
  decodeURIComponent (lit "operations%2fabc%201") = Some (lit "operations/abc 1").
Proof. vm_compute. reflexivity. Qed.

Example decodeURIComponent_astral :
  decodeURIComponent (lit "%C3%A9%F0%9F%98%80") = Some [233; 55357; 56832].
Proof. vm_compute. reflexivity. Qed.

Example decodeURIComponent_malformed :
  decodeURIComponent (lit "%") = None /\
  decodeURIComponent (lit "%4") = None /\
  decodeURIComponent (lit "%zz") = None /\
  decodeURIComponent (lit "%80") = None /\
  decodeURIComponent (lit "%C3(") = None /\
  decodeURIComponent (lit "%C0%80") = None /\
  decodeURIComponent (lit "%ED%A0%80") = None /\
  decodeURIComponent (lit "%F4%90%80%80") = None.
Proof. vm_compute. repeat split. Qed.

(** The falsy values: [undefined], [null], [false], zero and NaN, the
    empty string. *)
#[local] Set Warnings "-inexact-float".

Example Number_toString_integers :
  Number_toString 42 = lit "42" /\
  Number_toString (-7) = lit "-7" /\
  Number_toString 0 = lit "0" /\
  Number_toString (-0) = lit "0" /\
  Number_toString 9007199254740992 = lit "9007199254740992" /\
  Number_toString 1e20 = lit "100000000000000000000" /\
  Number_toString 123456789012345680000 = lit "123456789012345680000".
Proof. vm_compute. repeat split. Qed.

Example Number_toString_fractions :
  Number_toString 0.5 = lit "0.5" /\
  Number_toString 0.1 = lit "0.1" /\
  Number_toString (0.1 + 0.2) = lit "0.30000000000000004" /\
  Number_toString (1 / 3) = lit "0.3333333333333333" /\
  Number_toString 123.456 = lit "123.456" /\
  Number_toString (-1.5) = lit "-1.5" /\
  Number_toString 0.000001 = lit "0.000001".
Proof. vm_compute. repeat split. Qed.

Example Number_toString_exponents :
  Number_toString 1e21 = lit "1e+21" /\
  Number_toString 1.5e-7 = lit "1.5e-7" /\
  Number_toString 1e-7 = lit "1e-7" /\
  Number_toString 5e-324 = lit "5e-324" /\
  Number_toString 2.2250738585072014e-308 = lit "2.2250738585072014e-308" /\
  Number_toString 1.7976931348623157e308 = lit "1.7976931348623157e+308" /\
  Number_toString 1e23 = lit "1e+23".
Proof. vm_compute. repeat split. Qed.

Example Number_toString_not_finite :
  Number_toString (0 / 0) = lit "NaN" /\
  Number_toString (1 / 0) = lit "Infinity" /\
  Number_toString (-1 / 0) = lit "-Infinity".
Proof. vm_compute. repeat split. Qed.

Example ToString_value_examples :
  ToString_value (JNum 42) = lit "42" /\
  ToString_value (JArr [JNum 1; JNum 2]) = lit "1,2" /\
  ToString_value (JArr []) = [] /\
  ToString_value (JArr [JNull; JStr (lit "a"); JArr [JBool true; JNum 0.5]; JObj []]) =
  lit ",a,true,0.5,[object Object]" /\
  ToString_value (JObj [(lit "code", JNum 429)]) = lit "[object Object]" /\
  ToString_value (JBool false) = lit "false" /\
  ToString_value JNull = lit "null" /\
  ToString_value (JStr (lit "quota exceeded")) = lit "quota exceeded".
Proof. vm_compute. repeat split. Qed.

Lemma ToBoolean_false_iff (v : option Json) :
  ToBoolean v = false <->
  v = None \/ v = Some JNull \/ v = Some (JBool false) \/
  (exists x, v = Some (JNum x) /\ (PrimFloat.eqb x 0%float || PrimFloat.is_nan x) = true) \/
  v = Some (JStr []).
Proof.
  split.
  - destruct v as [[| [|] | x | [|c s] | l | fs]|]; simpl; intros H;
      try discriminate; auto 6.
    right; right; right; left. exists x. split; [reflexivity|].
    destruct (_ || _); [reflexivity | discriminate].
  - intros [-> | [-> | [-> | [(x & -> & H) | ->]]]]; simpl; try reflexivity.
    rewrite H. reflexivity.
Qed.

(** A [done] that is not a boolean can be truthy: any string that is not
    empty, any object, any array. *)
Lemma ToBoolean_not_boolean :
  (forall c s, ToBoolean (Some (JStr (c :: s))) = true) /\
  (forall fields, ToBoolean (Some (JObj fields)) = true) /\
  (forall items, ToBoolean (Some (JArr items)) = true).
Proof. repeat split. Qed.

Lemma is_empty_true (s : jsstring) : is_empty s = true <-> s = [].
Proof. destruct s; simpl; split; congruence. Qed.

Lemma is_empty_false (s : jsstring) : is_empty s = false <-> s <> [].
Proof. destruct s; simpl; split; congruence. Qed.

(* ===================================================================== *)
(** * Facts about the page *)
(* ===================================================================== *)

Section PageFacts.

Variable E : Engine.

(** ** The timer guard *)

Lemma clearPollTimer_state w : state (clearPollTimer w) = state w.
Proof. unfold clearPollTimer. destruct (pollTimerRef w); reflexivity. Qed.

Lemma clearPollTimer_ref w : pollTimerRef (clearPollTimer w) = None.
Proof. unfold clearPollTimer. destruct (pollTimerRef w) eqn:H; [reflexivity | exact H]. Qed.

Lemma clearPollTimer_calls w : calls (clearPollTimer w) = calls w.
Proof. unfold clearPollTimer. destruct (pollTimerRef w); reflexivity. Qed.

Lemma clearPollTimer_statusFetches w :
  statusFetches (clearPollTimer w) = statusFetches w.
Proof. unfold clearPollTimer. destruct (pollTimerRef w); reflexivity. Qed.

Lemma clearPollTimer_submitFetches w :
  submitFetches (clearPollTimer w) = submitFetches w.
Proof. unfold clearPollTimer. destruct (pollTimerRef w); reflexivity. Qed.

Lemma clearPollTimer_nextRequest w :
  nextRequest (clearPollTimer w) = nextRequest w.
Proof. unfold clearPollTimer. destruct (pollTimerRef w); reflexivity. Qed.

Lemma clearPollTimer_intervals w :
  timerOwned w -> intervals (clearPollTimer w) = ∅.
Proof.
  unfold timerOwned, clearPollTimer.
  destruct (pollTimerRef w) as [h|]; simpl; [|auto].
  intros (op & -> & _). apply delete_singleton_eq.
Qed.

Lemma clearPollTimer_empty w :
  intervals w = ∅ -> intervals (clearPollTimer w) = ∅.
Proof.
  unfold clearPollTimer. destruct (pollTimerRef w) as [h|]; simpl; [|auto].
  intros ->. apply delete_empty.
Qed.

Lemma clearPollTimer_owned w : timerOwned w -> timerOwned (clearPollTimer w).
Proof.
  intros H. unfold timerOwned. rewrite clearPollTimer_ref.
  apply clearPollTimer_intervals, H.
Qed.

(** ** [poll] *)

Lemma poll_catch_state e w :
  state (poll_catch e w) =
  state (setErrorMessage (Some (messageOr (lit "Failed to poll operation.") e))
           (setPolling false w)).
Proof. unfold poll_catch. apply clearPollTimer_state. Qed.

Lemma poll_catch_ref e w : pollTimerRef (poll_catch e w) = None.
Proof. apply clearPollTimer_ref. Qed.

Lemma poll_catch_calls e w : calls (poll_catch e w) = calls w.
Proof. unfold poll_catch. rewrite clearPollTimer_calls. reflexivity. Qed.

Lemma poll_catch_statusFetches e w :
  statusFetches (poll_catch e w) = statusFetches w.
Proof. unfold poll_catch. rewrite clearPollTimer_statusFetches. reflexivity. Qed.

Lemma poll_catch_submitFetches e w :
  submitFetches (poll_catch e w) = submitFetches w.
Proof. unfold poll_catch. rewrite clearPollTimer_submitFetches. reflexivity. Qed.

Lemma poll_catch_nextRequest e w : nextRequest (poll_catch e w) = nextRequest w.
Proof. unfold poll_catch. rewrite clearPollTimer_nextRequest. reflexivity. Qed.

Lemma poll_catch_intervals e w :
  timerOwned w -> intervals (poll_catch e w) = ∅.
Proof. intros H. unfold poll_catch. apply clearPollTimer_intervals. exact H. Qed.

Lemma poll_catch_empty e w :
  intervals w = ∅ -> intervals (poll_catch e w) = ∅.
Proof. intros H. unfold poll_catch. apply clearPollTimer_empty. exact H. Qed.

Lemma poll_catch_owned e w : timerOwned w -> timerOwned (poll_catch e w).
Proof.
  intros H. unfold timerOwned. rewrite poll_catch_ref.
  apply poll_catch_intervals, H.
Qed.

(** What [poll] does to the parts of the world a status fetch does not
    touch. *)
Lemma poll_owned op w : timerOwned w -> timerOwned (poll E op w).
Proof.
  intros H. unfold poll.
  destruct (orURIError E (encodeURIComponent op)); [exact H|].
  apply poll_catch_owned, H.
Qed.

Lemma poll_empty op w : intervals w = ∅ -> intervals (poll E op w) = ∅.
Proof.
  intros H. unfold poll.
  destruct (orURIError E (encodeURIComponent op)); [exact H|].
  apply poll_catch_empty, H.
Qed.

Lemma poll_submitFetches op w : submitFetches (poll E op w) = submitFetches w.
Proof.
  unfold poll. destruct (orURIError E (encodeURIComponent op)); [reflexivity|].
  apply poll_catch_submitFetches.
Qed.

Lemma poll_operationId op w :
  operationId (state (poll E op w)) = operationId (state w).
Proof.
  unfold poll. destruct (orURIError E (encodeURIComponent op)); [reflexivity|].
  rewrite poll_catch_state. reflexivity.
Qed.

Lemma poll_submitting op w :
  submitting (state (poll E op w)) = submitting (state w).
Proof.
  unfold poll. destruct (orURIError E (encodeURIComponent op)); [reflexivity|].
  rewrite poll_catch_state. reflexivity.
Qed.

Lemma poll_stubMessage op w :
  stubMessage (state (poll E op w)) = stubMessage (state w).
Proof.
  unfold poll. destruct (orURIError E (encodeURIComponent op)); [reflexivity|].
  rewrite poll_catch_state. reflexivity.
Qed.

Lemma poll_ref_None op w :
  pollTimerRef w = None -> pollTimerRef (poll E op w) = None.
Proof.
  intros H. unfold poll.
  destruct (orURIError E (encodeURIComponent op)); [exact H|].
  apply poll_catch_ref.
Qed.

Lemma poll_fresh op w : requestsFresh w -> requestsFresh (poll E op w).
Proof.
  intros H. unfold poll.
  destruct (orURIError E (encodeURIComponent op)).
  - intros r Hr. simpl in *. rewrite lookup_insert_ne by lia. apply H. lia.
  - intros r Hr. rewrite poll_catch_statusFetches.
    rewrite poll_catch_nextRequest in Hr. apply H, Hr.
Qed.

(** [poll] after its fetch settled: the world differs from the one
    before only in [polling], [errorMessage], [operationStatus] and the
    timer, and the timer can only be cleared. *)
Lemma poll_resume_owned reply w :
  timerOwned w -> timerOwned (poll_resume E reply w).
Proof.
  intros H. unfold poll_resume.
  destruct reply as [e | status [st | e]];
    [apply poll_catch_owned, H | | ];
    (destruct (negb (ok status)); [apply poll_catch_owned, H |]).
  - destruct (property E st (lit "done")) as [done | e].
    + destruct (ToBoolean done); [| exact H].
      apply (clearPollTimer_owned (setOperationStatus st w)), H.
    + apply (poll_catch_owned e (setOperationStatus st w)), H.
  - apply poll_catch_owned, H.
Qed.

Lemma poll_resume_empty reply w :
  intervals w = ∅ -> intervals (poll_resume E reply w) = ∅.
Proof.
  intros H. unfold poll_resume.
  destruct reply as [e | status [st | e]];
    [apply poll_catch_empty, H | | ];
    (destruct (negb (ok status)); [apply poll_catch_empty, H |]).
  - destruct (property E st (lit "done")) as [done | e].
    + destruct (ToBoolean done); [| exact H].
      apply (clearPollTimer_empty (setOperationStatus st w)), H.
    + apply (poll_catch_empty e (setOperationStatus st w)), H.
  - apply poll_catch_empty, H.
Qed.

Ltac poll_resume_cases reply :=
  unfold poll_resume;
  destruct reply as [? | ? [? | ?]];
  repeat match goal with
         | |- context [if negb (ok ?s) then _ else _] => destruct (negb (ok s))
         | |- context [match property ?E ?st ?k with _ => _ end] =>
             destruct (property E st k)
         | |- context [if ToBoolean ?d then _ else _] => destruct (ToBoolean d)
         end;
  simpl;
  rewrite ?poll_catch_state, ?poll_catch_calls, ?poll_catch_statusFetches,
    ?poll_catch_submitFetches, ?poll_catch_nextRequest, ?poll_catch_ref,
    ?clearPollTimer_state, ?clearPollTimer_calls, ?clearPollTimer_statusFetches,
    ?clearPollTimer_submitFetches, ?clearPollTimer_nextRequest,
    ?clearPollTimer_ref;
  try reflexivity.

Lemma poll_resume_calls reply w : calls (poll_resume E reply w) = calls w.
Proof. poll_resume_cases reply. Qed.

Lemma poll_resume_statusFetches reply w :
  statusFetches (poll_resume E reply w) = statusFetches w.
Proof. poll_resume_cases reply. Qed.

Lemma poll_resume_submitFetches reply w :
  submitFetches (poll_resume E reply w) = submitFetches w.
Proof. poll_resume_cases reply. Qed.

Lemma poll_resume_nextRequest reply w :
  nextRequest (poll_resume E reply w) = nextRequest w.
Proof. poll_resume_cases reply. Qed.

Lemma poll_resume_operationId reply w :
  operationId (state (poll_resume E reply w)) = operationId (state w).
Proof. poll_resume_cases reply. Qed.

Lemma poll_resume_submitting reply w :
  submitting (state (poll_resume E reply w)) = submitting (state w).
Proof. poll_resume_cases reply. Qed.

Lemma poll_resume_stubMessage reply w :
  stubMessage (state (poll_resume E reply w)) = stubMessage (state w).
Proof. poll_resume_cases reply. Qed.

Lemma poll_resume_ref_None reply w :
  pollTimerRef w = None -> pollTimerRef (poll_resume E reply w) = None.
Proof. intros H. poll_resume_cases reply; exact H. Qed.

(** ** [handleSubmit] *)

Lemma handleSubmit_started w : SubmitStarted w (handleSubmit w).
Proof.
  unfold handleSubmit.
  destruct (is_empty (trim (prompt (state w)))).
  - eapply SubmitInvalid; reflexivity.
  - destruct (Nat.eqb _ 0).
    + eapply SubmitInvalid; reflexivity.
    + eapply SubmitIssued; reflexivity.
Qed.

Ltac handleSubmit_cases w :=
  unfold handleSubmit;
  destruct (is_empty (trim (prompt (state w))));
  [| destruct (Nat.eqb (length (referenceImagesOf (images (state w)))) 0)];
  try reflexivity.

Lemma handleSubmit_operationId w : operationId (state (handleSubmit w)) = None.
Proof. handleSubmit_cases w. Qed.

Lemma handleSubmit_stubMessage w : stubMessage (state (handleSubmit w)) = None.
Proof. handleSubmit_cases w. Qed.

Lemma handleSubmit_polling w :
  polling (state (handleSubmit w)) = polling (state w).
Proof. handleSubmit_cases w. Qed.

Lemma handleSubmit_ref w : pollTimerRef (handleSubmit w) = pollTimerRef w.
Proof. handleSubmit_cases w. Qed.

Lemma handleSubmit_intervals w : intervals (handleSubmit w) = intervals w.
Proof. handleSubmit_cases w. Qed.

Lemma handleSubmit_statusFetches w :
  statusFetches (handleSubmit w) = statusFetches w.
Proof. handleSubmit_cases w. Qed.

(** The commit after the first part: [operationId] is null now, so the
    effect, when it runs, only clears the timer. *)
Lemma submit_unfold w :
  submit E w = match operationId (state w) with
               | None => handleSubmit w
               | Some _ => clearPollTimer (handleSubmit w)
               end.
Proof.
  unfold submit, commit. rewrite handleSubmit_operationId.
  destruct (operationId (state w)) as [op|]; case_decide; try congruence.
  unfold effect. rewrite handleSubmit_operationId. reflexivity.
Qed.

Lemma submit_started w : SubmitStarted w (submit E w).
Proof.
  rewrite submit_unfold. pose proof (handleSubmit_started w) as H.
  destruct (operationId (state w)); [|exact H].
  destruct H as [m ? ? ? ? ? | b ? ? ? ? ?];
    [eapply SubmitInvalid | eapply SubmitIssued];
    rewrite ?clearPollTimer_state, ?clearPollTimer_submitFetches,
      ?clearPollTimer_nextRequest, ?clearPollTimer_calls; eassumption.
Qed.

Lemma submit_operationId w : operationId (state (submit E w)) = None.
Proof.
  rewrite submit_unfold. destruct (operationId (state w));
    rewrite ?clearPollTimer_state; apply handleSubmit_operationId.
Qed.

Lemma submit_stubMessage w : stubMessage (state (submit E w)) = None.
Proof.
  rewrite submit_unfold. destruct (operationId (state w));
    rewrite ?clearPollTimer_state; apply handleSubmit_stubMessage.
Qed.

Lemma submit_polling w : polling (state (submit E w)) = polling (state w).
Proof.
  rewrite submit_unfold. destruct (operationId (state w));
    rewrite ?clearPollTimer_state; apply handleSubmit_polling.
Qed.

Lemma submit_statusFetches w : statusFetches (submit E w) = statusFetches w.
Proof.
  rewrite submit_unfold. destruct (operationId (state w));
    rewrite ?clearPollTimer_statusFetches; apply handleSubmit_statusFetches.
Qed.

Lemma submit_timer w :
  timerOwned w -> pollTimerRef (submit E w) = None /\ intervals (submit E w) = ∅.
Proof.
  intros H. rewrite submit_unfold.
  destruct (operationId (state w)) as [op|] eqn:Hop.
  - split; [apply clearPollTimer_ref|].
    unfold timerOwned in H. unfold clearPollTimer.
    rewrite handleSubmit_ref.
    destruct (pollTimerRef w) as [h|]; simpl; rewrite handleSubmit_intervals.
    + destruct H as (op' & -> & _). apply delete_singleton_eq.
    + exact H.
  - unfold timerOwned in H. rewrite handleSubmit_ref, handleSubmit_intervals.
    destruct (pollTimerRef w) as [h|]; [|auto].
    destruct H as (op' & _ & H). congruence.
Qed.

(** The second part of [handleSubmit] leaves the timer and the fetches
    alone and clears [submitting]. *)
Ltac handleSubmit_resume_cases reply :=
  unfold handleSubmit_resume;
  destruct reply as [? | ? ? | [[? | ? ?] | ?]];
  try reflexivity.

Lemma handleSubmit_resume_submitting reply w :
  submitting (state (handleSubmit_resume E reply w)) = false.
Proof. handleSubmit_resume_cases reply. Qed.

Lemma handleSubmit_resume_ref reply w :
  pollTimerRef (handleSubmit_resume E reply w) = pollTimerRef w.
Proof. handleSubmit_resume_cases reply. Qed.

Lemma handleSubmit_resume_intervals reply w :
  intervals (handleSubmit_resume E reply w) = intervals w.
Proof. handleSubmit_resume_cases reply. Qed.

Lemma handleSubmit_resume_statusFetches reply w :
  statusFetches (handleSubmit_resume E reply w) = statusFetches w.
Proof. handleSubmit_resume_cases reply. Qed.

Lemma handleSubmit_resume_submitFetches reply w :
  submitFetches (handleSubmit_resume E reply w) = submitFetches w.
Proof. handleSubmit_resume_cases reply. Qed.

Lemma handleSubmit_resume_nextRequest reply w :
  nextRequest (handleSubmit_resume E reply w) = nextRequest w.
Proof. handleSubmit_resume_cases reply. Qed.

Lemma handleSubmit_resume_calls reply w :
  calls (handleSubmit_resume E reply w) = calls w.
Proof. handleSubmit_resume_cases reply. Qed.

Lemma handleSubmit_resume_operationId reply w :
  operationId (state (handleSubmit_resume E reply w)) =
  match reply with
  | SubmitOk (Normal (GenerateVideoSuccess op _)) => Some op
  | _ => operationId (state w)
  end.
Proof. handleSubmit_resume_cases reply. Qed.

(** ** The effect *)

(** With no timer held, the effect on a handle that is not empty calls
    [poll] once and holds exactly the new interval. *)
Lemma effect_starts w op :
  operationId (state w) = Some op ->
  is_empty op = false ->
  effect E w =
  setPollTimerRef (Some (nextHandle (poll E op (setPolling true w))))
    (snd (setInterval op (poll E op (setPolling true w)))).
Proof. intros Hop Hne. unfold effect. rewrite Hop, Hne. reflexivity. Qed.

Lemma effect_cancels w :
  match operationId (state w) with
  | None => True
  | Some op => is_empty op = true
  end ->
  effect E w = clearPollTimer w.
Proof.
  unfold effect. destruct (operationId (state w)) as [op|]; [|reflexivity].
  intros ->. reflexivity.
Qed.

(** ** The invariant *)

Lemma Inv_mounted : Inv mounted.
Proof.
  split.
  - reflexivity.
  - reflexivity.
  - intros r _. apply lookup_empty.
Qed.

(** What an open submit fetch tells about a world. *)
Lemma submission_pending w r body :
  Inv w -> submitFetches w !! r = Some body ->
  submitting (state w) = true /\ operationId (state w) = None /\
  pollTimerRef w = None /\ intervals w = ∅ /\ submitFetches w = {[r := body]}.
Proof.
  intros [Ht Hs _] Hr. unfold submissionOpen in Hs. unfold timerOwned in Ht.
  destruct (submitting (state w)).
  - destruct Hs as (Hop & r' & b' & Hf). rewrite Hf in Hr.
    apply lookup_singleton_Some in Hr as [-> ->].
    destruct (pollTimerRef w) as [h|].
    + destruct Ht as (op & _ & Ht). congruence.
    + auto.
  - rewrite Hs, lookup_empty in Hr. discriminate.
Qed.

Lemma step_Inv w ev w' : Inv w -> step E w ev = Some w' -> Inv w'.
Proof.
  intros HI Hstep. pose proof HI as [Ht Hs Hf].
  destruct ev as [v | v | | r reply | h | r reply]; simpl in Hstep.
  - injection Hstep as <-. split; assumption.
  - injection Hstep as <-. split; assumption.
  - destruct (submitting (state w)) eqn:Hsub; [discriminate|].
    injection Hstep as <-. unfold submissionOpen in Hs. rewrite Hsub in Hs.
    destruct (submit_timer w Ht) as [Hr Hi].
    pose proof (submit_started w) as Hst.
    split.
    + unfold timerOwned. rewrite Hr. exact Hi.
    + unfold submissionOpen.
      destruct Hst as [m _ -> -> _ _ | b _ -> -> _ _]; [exact Hs|].
      split; [apply submit_operationId|].
      exists (nextRequest w), b. rewrite Hs. apply insert_empty.
    + intros r Hr'. rewrite submit_statusFetches. apply Hf.
      destruct Hst as [m _ _ _ Hn _ | b _ _ _ Hn _]; rewrite Hn in Hr'; lia.
  - destruct (submitFetches w !! r) as [body|] eqn:Hr; [|discriminate].
    injection Hstep as <-.
    destruct (submission_pending w r body HI Hr) as (Hsub & Hop & Href & Hiv & Hsf).
    remember (handleSubmit_resume E reply (settleSubmit r w)) as w0 eqn:Hw0.
    assert (Hsf0 : submitFetches w0 = ∅).
    { rewrite Hw0, handleSubmit_resume_submitFetches. simpl.
      rewrite Hsf. apply delete_singleton_eq. }
    assert (Hf0 : requestsFresh w0).
    { intros r' Hr'. rewrite Hw0 in *.
      rewrite handleSubmit_resume_statusFetches.
      rewrite handleSubmit_resume_nextRequest in Hr'. apply Hf, Hr'. }
    assert (Href0 : pollTimerRef w0 = None).
    { rewrite Hw0, handleSubmit_resume_ref. exact Href. }
    assert (Hiv0 : intervals w0 = ∅).
    { rewrite Hw0, handleSubmit_resume_intervals. exact Hiv. }
    assert (Hsub0 : submitting (state w0) = false)
      by (rewrite Hw0; apply handleSubmit_resume_submitting).
    clear Hw0. unfold commit. case_decide as Hdec.
    { split.
      - unfold timerOwned. rewrite Href0. exact Hiv0.
      - unfold submissionOpen. rewrite Hsub0. exact Hsf0.
      - exact Hf0. }
    destruct (operationId (state w0)) as [op|] eqn:Hop0; [|congruence].
    destruct (is_empty op) eqn:Hne.
    { rewrite effect_cancels by (rewrite Hop0; exact Hne). split.
      - unfold timerOwned. rewrite clearPollTimer_ref.
        apply clearPollTimer_empty, Hiv0.
      - unfold submissionOpen.
        rewrite clearPollTimer_state, clearPollTimer_submitFetches, Hsub0.
        exact Hsf0.
      - intros r' Hr'. rewrite clearPollTimer_statusFetches.
        rewrite clearPollTimer_nextRequest in Hr'. apply Hf0, Hr'. }
    rewrite (effect_starts w0 op Hop0 Hne).
    pose proof (poll_empty op (setPolling true w0) Hiv0) as Hiv1.
    pose proof (poll_operationId op (setPolling true w0)) as Hop1.
    pose proof (poll_submitting op (setPolling true w0)) as Hsub1.
    pose proof (poll_submitFetches op (setPolling true w0)) as Hsf1.
    pose proof (poll_fresh op (setPolling true w0) Hf0) as Hf1.
    simpl in Hop1, Hsub1, Hsf1.
    remember (poll E op (setPolling true w0)) as w1 eqn:Hw1. clear Hw1.
    split.
    + unfold timerOwned. simpl. exists op. split.
      * rewrite Hiv1. apply insert_empty.
      * rewrite Hop1. exact Hop0.
    + unfold submissionOpen. simpl. rewrite Hsub1, Hsf1, Hsub0. exact Hsf0.
    + exact Hf1.
  - destruct (intervals w !! h) as [op|] eqn:Hh; [|discriminate].
    injection Hstep as <-. split.
    + apply poll_owned, Ht.
    + unfold submissionOpen.
      rewrite poll_submitting, poll_operationId, poll_submitFetches. exact Hs.
    + apply poll_fresh, Hf.
  - destruct (statusFetches w !! r) as [url|] eqn:Hr; [|discriminate].
    injection Hstep as <-. split.
    + apply poll_resume_owned. exact Ht.
    + unfold submissionOpen.
      rewrite poll_resume_submitting, poll_resume_operationId,
        poll_resume_submitFetches. exact Hs.
    + intros r' Hr'. rewrite poll_resume_statusFetches.
      rewrite poll_resume_nextRequest in Hr'. simpl in *.
      rewrite lookup_delete_None. right. apply Hf, Hr'.
Qed.

Lemma run_Inv evs : forall w w', Inv w -> run E w evs = Some w' -> Inv w'.
Proof.
  induction evs as [|ev evs IH]; simpl; intros w w' HI Hrun.
  - injection Hrun as <-. exact HI.
  - destruct (step E w ev) as [w1|] eqn:Hstep; [|discriminate].
    eapply IH; [|exact Hrun]. eapply step_Inv; eassumption.
Qed.

Lemma reachable_Inv w : reachable E w -> Inv w.
Proof. intros [evs Hrun]. eapply run_Inv; [apply Inv_mounted | exact Hrun]. Qed.

Lemma run_app w evs1 evs2 :
  run E w (evs1 ++ evs2) =
  match run E w evs1 with Some w1 => run E w1 evs2 | None => None end.
Proof.
  revert w. induction evs1 as [|ev evs1 IH]; intros w; simpl; [reflexivity|].
  destruct (step E w ev); [apply IH | reflexivity].
Qed.

Lemma reachable_run w evs w' :
  reachable E w -> run E w evs = Some w' -> reachable E w'.
Proof.
  intros [evs0 H0] H. exists (evs0 ++ evs). rewrite run_app, H0. exact H.
Qed.

Lemma reachable_step w ev w' :
  reachable E w -> step E w ev = Some w' -> reachable E w'.
Proof.
  intros Hr Hs. apply (reachable_run w [ev] w' Hr). simpl. rewrite Hs. reflexivity.
Qed.

(** ** Runs without a submission *)

Lemma poll_resume_polling reply w :
  polling (state w) = false -> polling (state (poll_resume E reply w)) = false.
Proof. intros H. poll_resume_cases reply; exact H. Qed.

Lemma Idled_refl w : intervals w = ∅ -> Idled w w.
Proof. intros H. split; auto. Qed.

Lemma Idled_trans w1 w2 w3 : Idled w1 w2 -> Idled w2 w3 -> Idled w1 w3.
Proof.
  intros [A1 A2 A3 A4 A5 A6 A7 A8 A9] [B1 B2 B3 B4 B5 B6 B7 B8 B9].
  split; try congruence; auto.
  intros H. destruct (A9 H) as [H1 H2]. destruct (B9 H1) as [H3 H4].
  split; congruence.
Qed.

Lemma idle_step w ev w' :
  intervals w = ∅ -> idle ev = true -> step E w ev = Some w' -> Idled w w'.
Proof.
  intros Hiv Hidle Hstep.
  destruct ev as [v | v | | r reply | h | r reply]; simpl in *;
    try discriminate.
  - injection Hstep as <-. split; auto.
  - injection Hstep as <-. split; auto.
  - rewrite Hiv, lookup_empty in Hstep. discriminate.
  - destruct (statusFetches w !! r) eqn:Hr; [|discriminate].
    injection Hstep as <-. split;
      [| | | | | | | | intros H; rewrite H, lookup_empty in Hr; discriminate].
    + apply poll_resume_empty. exact Hiv.
    + intros H. apply poll_resume_ref_None. exact H.
    + exact (poll_resume_calls reply (settleStatus r w)).
    + exact (poll_resume_operationId reply (settleStatus r w)).
    + exact (poll_resume_submitting reply (settleStatus r w)).
    + exact (poll_resume_stubMessage reply (settleStatus r w)).
    + exact (poll_resume_submitFetches reply (settleStatus r w)).
    + intros H. apply poll_resume_polling. exact H.
Qed.

Lemma idle_run evs : forall w w',
  intervals w = ∅ -> forallb idle evs = true -> run E w evs = Some w' ->
  Idled w w'.
Proof.
  induction evs as [|ev evs IH]; simpl; intros w w' Hiv Hidle Hrun.
  - injection Hrun as <-. apply Idled_refl, Hiv.
  - apply andb_prop in Hidle as [Hev Hevs].
    destruct (step E w ev) as [w1|] eqn:Hstep; [|discriminate].
    pose proof (idle_step w ev w1 Hiv Hev Hstep) as H1.
    eapply Idled_trans; [exact H1|].
    apply IH; [apply (idled_intervals _ _ H1) | exact Hevs | exact Hrun].
Qed.

(** ** What a settled status fetch does *)

(** A reply that [poll] takes for completion. *)
Lemma poll_resume_done code status done w :
  ok code = true ->
  property E status (lit "done") = Normal done ->
  ToBoolean done = true ->
  poll_resume E (StatusResponse code (Normal status)) w =
  setPolling false (clearPollTimer (setOperationStatus status w)).
Proof. intros Hok Hp Hd. unfold poll_resume. rewrite Hok, Hp, Hd. reflexivity. Qed.

(** A reply that [poll] takes for "not yet". *)
Lemma poll_resume_pending code status done w :
  ok code = true ->
  property E status (lit "done") = Normal done ->
  ToBoolean done = false ->
  poll_resume E (StatusResponse code (Normal status)) w =
  setOperationStatus status w.
Proof. intros Hok Hp Hd. unfold poll_resume. rewrite Hok, Hp, Hd. reflexivity. Qed.

(** A fetch that failed. *)
Lemma poll_resume_failed reply message w :
  QueryFailed reply message ->
  poll_resume E reply w = poll_catch (ErrorObject message) w
  \/ poll_resume E reply w = poll_catch NonError w /\
     message = lit "Failed to poll operation.".
Proof.
  intros [e | code json Hok]; simpl.
  - destruct e as [m|]; [left | right]; auto.
  - rewrite Hok. left. reflexivity.
Qed.

Lemma poll_resume_failed_state reply message w :
  QueryFailed reply message ->
  state (poll_resume E reply w) =
  state (setErrorMessage (Some message) (setPolling false w)).
Proof.
  intros [e | code json Hok]; simpl.
  - apply poll_catch_state.
  - rewrite Hok. simpl. apply poll_catch_state.
Qed.

Lemma poll_resume_failed_ref reply message w :
  QueryFailed reply message -> pollTimerRef (poll_resume E reply w) = None.
Proof.
  intros [e | code json Hok]; simpl.
  - apply poll_catch_ref.
  - rewrite Hok. simpl. apply poll_catch_ref.
Qed.

(** The payload [null]: reading [done] throws, [poll] catches the
    TypeError, and polling ends with its message. *)
Lemma poll_resume_null code w :
  ok code = true ->
  poll_resume E (StatusResponse code (Normal JNull)) w =
  poll_catch (ErrorObject (TypeError_message E)) (setOperationStatus JNull w).
Proof. intros Hok. unfold poll_resume. rewrite Hok. reflexivity. Qed.

(** ** Reading a step backwards *)

Lemma step_Submit w w' :
  step E w Submit = Some w' -> submitting (state w) = false /\ w' = submit E w.
Proof.
  unfold step. destruct (submitting (state w)); [discriminate|].
  intros H. apply (inj Some) in H. auto.
Qed.

Lemma step_SubmitSettled w r reply w' :
  step E w (SubmitSettled r reply) = Some w' ->
  (exists body, submitFetches w !! r = Some body) /\
  w' = commit E (operationId (state w)) (handleSubmit_resume E reply (settleSubmit r w)).
Proof.
  unfold step. destruct (submitFetches w !! r) as [body|]; [|discriminate].
  intros H. apply (inj Some) in H. eauto.
Qed.

Lemma step_IntervalElapsed w h w' :
  step E w (IntervalElapsed h) = Some w' ->
  exists op, intervals w !! h = Some op /\ w' = poll E op w.
Proof.
  unfold step. destruct (intervals w !! h) as [op|]; [|discriminate].
  intros H. apply (inj Some) in H. eauto.
Qed.

Lemma step_StatusSettled w q reply w' :
  step E w (StatusSettled q reply) = Some w' ->
  (exists url, statusFetches w !! q = Some url) /\
  w' = poll_resume E reply (settleStatus q w).
Proof.
  unfold step. destruct (statusFetches w !! q) as [url|]; [|discriminate].
  intros H. apply (inj Some) in H. eauto.
Qed.

(* ===================================================================== *)
(** * The lifecycle properties of the page *)
(* ===================================================================== *)

(** C1.  A submission is answered with a handle ([status: "success"] and
    an [operationId]); later a status fetch settles with an [ok] response
    whose [done] is [true].  Then [polling] is cleared, the payload is the
    stored [operationStatus], the timer reference is null and no interval
    is active; and as long as no submission is started or settled, no
    further fetch is issued. *)
Theorem deferred_then_done_completes
    (w w1 w2 w3 : World) (r q code : nat) (op : jsstring) (raw status : Json)
    (evs : list Event) :
  reachable E w ->
  step E w (SubmitSettled r (SubmitOk (Normal (GenerateVideoSuccess op raw)))) = Some w1 ->
  run E w1 evs = Some w2 ->
  ok code = true ->
  property E status (lit "done") = Normal (Some (JBool true)) ->
  step E w2 (StatusSettled q (StatusResponse code (Normal status))) = Some w3 ->
  polling (state w3) = false /\
  operationStatus (state w3) = status /\
  pollTimerRef w3 = None /\
  intervals w3 = ∅ /\
  forall evs' w4,
    forallb idle evs' = true -> run E w3 evs' = Some w4 -> calls w4 = calls w3.
Proof.
  intros Hw Hs1 Hrun Hok Hdone Hs3.
  assert (HI : Inv w2).
  { apply reachable_Inv. eapply reachable_run; [|exact Hrun].
    eapply reachable_step; eassumption. }
  apply step_StatusSettled in Hs3 as [_ ->].
  rewrite (poll_resume_done code status (Some (JBool true))) by auto.
  assert (Hiv : intervals (clearPollTimer
                   (setOperationStatus status (settleStatus q w2))) = ∅).
  { apply clearPollTimer_intervals. exact (inv_timer _ HI). }
  repeat split.
  - simpl. rewrite clearPollTimer_state. reflexivity.
  - simpl. apply clearPollTimer_ref.
  - exact Hiv.
  - intros evs' w4 Hidle Hrun'.
    refine (idled_calls _ _ (idle_run evs' _ w4 _ Hidle Hrun')). exact Hiv.
Qed.

(** C2, as the code has it.  A status fetch fails (it rejects, or the
    response is not [ok]).  Then the timer reference is null and no
    interval is active, [polling] is cleared and [errorMessage] is the
    message of the failure; the stored [operationId] is kept; and as long
    as no submission is started or settled, no further fetch is issued. *)
Theorem poll_failure_stops_polling
    (w w' : World) (q : nat) (reply : StatusReply) (message : jsstring) :
  reachable E w ->
  QueryFailed reply message ->
  step E w (StatusSettled q reply) = Some w' ->
  pollTimerRef w' = None /\
  intervals w' = ∅ /\
  polling (state w') = false /\
  errorMessage (state w') = Some message /\
  operationId (state w') = operationId (state w) /\
  forall evs w'',
    forallb idle evs = true -> run E w' evs = Some w'' -> calls w'' = calls w'.
Proof.
  intros Hw Hfail Hstep. pose proof (reachable_Inv w Hw) as HI.
  apply step_StatusSettled in Hstep as [_ ->].
  pose proof (poll_resume_failed_ref reply message (settleStatus q w) Hfail) as Href.
  pose proof (poll_resume_owned reply (settleStatus q w) (inv_timer _ HI)) as Hown.
  unfold timerOwned in Hown. rewrite Href in Hown.
  rewrite (poll_resume_failed_state reply message) by exact Hfail.
  repeat split; try assumption.
  intros evs w'' Hidle Hrun.
  exact (idled_calls _ _ (idle_run evs _ w'' Hown Hidle Hrun)).
Qed.

(** C5, as the code has it.  At most one interval is active, the one
    [pollTimerRef] names; each time it elapses [poll] issues one status
    fetch for the stored [operationId] (none when the handle cannot be
    encoded), whatever earlier fetches are still open: the new fetch is
    added to them. *)
Theorem one_timer_one_fetch_per_interval (w : World) :
  reachable E w ->
  (size (intervals w) <= 1)%nat /\
  forall h w',
    step E w (IntervalElapsed h) = Some w' ->
    pollTimerRef w = Some h /\
    exists op,
      operationId (state w) = Some op /\
      match encodeURIComponent op with
      | Some encoded =>
          statusFetches w !! nextRequest w = None /\
          statusFetches w' = <[nextRequest w := statusUrl encoded]> (statusFetches w) /\
          calls w' = GetStatus (statusUrl encoded) :: calls w
      | None =>
          statusFetches w' = statusFetches w /\ calls w' = calls w
      end.
Proof.
  intros Hw. destruct (reachable_Inv w Hw) as [Ht _ Hf].
  unfold timerOwned in Ht. split.
  - destruct (pollTimerRef w) as [h0|].
    + destruct Ht as (op & -> & _). rewrite map_size_singleton. lia.
    + rewrite Ht, map_size_empty. lia.
  - intros h w' Hstep.
    apply step_IntervalElapsed in Hstep as (op' & Hh & ->).
    destruct (pollTimerRef w) as [h0|].
    + destruct Ht as (op & Hiv & Hop). rewrite Hiv in Hh.
      apply lookup_singleton_Some in Hh as [Hh1 Hh2]. subst h0 op'.
      split; [reflexivity|]. exists op. split; [exact Hop|].
      unfold poll. destruct (encodeURIComponent op) as [encoded|]; simpl.
      * split; [apply Hf; lia|]. split; reflexivity.
      * rewrite poll_catch_statusFetches, poll_catch_calls. split; reflexivity.
    + rewrite Ht, lookup_empty in Hh. discriminate.
Qed.


(** C8, as the code has it.  A status fetch settles with an [ok]
    response whose payload is not [null]; [done] is what reading the
    field gives ([undefined] when it is missing).  The payload becomes the
    stored [operationStatus].  When [done] is falsy (missing, [false],
    [null], [0], [NaN], the empty string) the operation is not yet
    complete: [polling], the timer, the intervals and [errorMessage] stay
    as they were and no fetch is issued.  When [done] is truthy, boolean
    or not, the operation is complete: [polling] is cleared and the timer
    reference is null. *)
Theorem done_is_tested_for_truthiness
    (w w' : World) (q code : nat) (status : Json) (done : option Json) :
  ok code = true ->
  property E status (lit "done") = Normal done ->
  step E w (StatusSettled q (StatusResponse code (Normal status))) = Some w' ->
  operationStatus (state w') = status /\
  if ToBoolean done
  then polling (state w') = false /\ pollTimerRef w' = None
  else polling (state w') = polling (state w) /\
       pollTimerRef w' = pollTimerRef w /\
       intervals w' = intervals w /\
       errorMessage (state w') = errorMessage (state w) /\
       calls w' = calls w.
Proof.
  intros Hok Hdone Hstep. apply step_StatusSettled in Hstep as [_ ->].
  destruct (ToBoolean done) eqn:Hd.
  - rewrite (poll_resume_done code status done) by assumption. simpl.
    rewrite clearPollTimer_state, clearPollTimer_ref. auto.
  - rewrite (poll_resume_pending code status done) by assumption.
    repeat split.
Qed.

(** C9.  The guarded clearing of the timer, by which the page cancels
    polling, changes nothing when it runs a second time; neither does the
    cleanup that runs when the component is torn down. *)
Theorem cancel_idempotent (w : World) :
  clearPollTimer (clearPollTimer w) = clearPollTimer w /\
  unmount (unmount w) = unmount w.
Proof.
  split.
  - unfold clearPollTimer at 1. rewrite clearPollTimer_ref. reflexivity.
  - unfold unmount. destruct (pollTimerRef w) as [h|] eqn:Hr; simpl.
    + rewrite Hr. unfold clearInterval. simpl. f_equal. apply delete_delete_eq.
    + rewrite Hr. reflexivity.
Qed.

(** The effect itself, on a null or empty [operationId], is idempotent. *)
Lemma effect_cancel_idempotent (w : World) :
  operationId (state w) = None -> effect E (effect E w) = effect E w.
Proof.
  intros H. rewrite (effect_cancels w) by (rewrite H; exact I).
  rewrite effect_cancels by (rewrite clearPollTimer_state, H; exact I).
  unfold clearPollTimer at 1. rewrite clearPollTimer_ref. reflexivity.
Qed.

End PageFacts.

(* ===================================================================== *)
(** * Validation at both ends, and the status route *)
(* ===================================================================== *)

Section Validation.

Variable E : Engine.
Context {ReferenceImagePayload : Type}.
Variable generateVideoWithGoogle :
  @GenerateVideoRoute.ProviderCall ReferenceImagePayload ->
  Completion GenerateVideoRoute.GenerateVideoResponse.

(** A request that carries no [prompt] at all is handled as one with the
    empty prompt. *)
Lemma POST_missing_prompt (imgs : option (list ReferenceImagePayload)) :
  GenerateVideoRoute.POST generateVideoWithGoogle (Normal {| GenerateVideoRoute.prompt := None;
                  GenerateVideoRoute.referenceImages := imgs |}) =
  GenerateVideoRoute.POST generateVideoWithGoogle (Normal {| GenerateVideoRoute.prompt := Some [];
                  GenerateVideoRoute.referenceImages := imgs |}).
Proof. reflexivity. Qed.



(** C10.  A list of more than four reference images is not a reason to
    reject, and it is cut to the first four before anything else looks
    at it: [POST] answers the request exactly as it answers the first
    four images, and the answer is never the 400 for a missing image.
    With a prompt that is not blank the request is not rejected at all:
    the provider is called once, with the trimmed prompt and the first
    four images in their order, and the answer is the provider's result
    or the 500 of a provider that threw.  With a blank prompt the answer
    is the 400 for the prompt, as for a list of any length, and the
    provider is not called. *)
Theorem long_image_list_is_truncated
    (p : option jsstring) (imgs : list ReferenceImagePayload) :
  (4 < length imgs)%nat ->
  GenerateVideoRoute.POST generateVideoWithGoogle (Normal {| GenerateVideoRoute.prompt := p;
                  GenerateVideoRoute.referenceImages := Some imgs |}) =
  GenerateVideoRoute.POST generateVideoWithGoogle (Normal {| GenerateVideoRoute.prompt := p;
                  GenerateVideoRoute.referenceImages := Some (take 4 imgs) |}) /\
  fst (GenerateVideoRoute.POST generateVideoWithGoogle (Normal {| GenerateVideoRoute.prompt := p;
                       GenerateVideoRoute.referenceImages := Some imgs |})) <>
  {| GenerateVideoRoute.status := 400;
     GenerateVideoRoute.body :=
       GenerateVideoRoute.ErrorBody (lit "At least one reference image is required.") |} /\
  snd (GenerateVideoRoute.POST generateVideoWithGoogle (Normal {| GenerateVideoRoute.prompt := p;
                       GenerateVideoRoute.referenceImages := Some imgs |})) =
  (if is_empty (trim (default [] p)) then []
   else [ {| GenerateVideoRoute.call_prompt := trim (default [] p);
             GenerateVideoRoute.call_referenceImages := take 4 imgs |} ]) /\
  (is_empty (trim (default [] p)) = false ->
   GenerateVideoRoute.status
     (fst (GenerateVideoRoute.POST generateVideoWithGoogle
             (Normal {| GenerateVideoRoute.prompt := p;
                        GenerateVideoRoute.referenceImages := Some imgs |}))) <> 400%nat /\
   fst (GenerateVideoRoute.POST generateVideoWithGoogle
          (Normal {| GenerateVideoRoute.prompt := p;
                     GenerateVideoRoute.referenceImages := Some imgs |})) =
   match generateVideoWithGoogle
           {| GenerateVideoRoute.call_prompt := trim (default [] p);
              GenerateVideoRoute.call_referenceImages := take 4 imgs |} with
   | Normal result =>
       {| GenerateVideoRoute.status := 200;
          GenerateVideoRoute.body := GenerateVideoRoute.ResultBody result |}
   | Throw e => GenerateVideoRoute.POST_catch e
   end) /\
  (is_empty (trim (default [] p)) = true ->
   GenerateVideoRoute.POST generateVideoWithGoogle
     (Normal {| GenerateVideoRoute.prompt := p;
                GenerateVideoRoute.referenceImages := Some imgs |}) =
   ({| GenerateVideoRoute.status := 400;
       GenerateVideoRoute.body := GenerateVideoRoute.ErrorBody (lit "Prompt is required.") |},
    [])).
Proof.
  intros Hlen.
  assert (Hz : Nat.eqb (length (take 4 imgs)) 0 = false).
  { rewrite length_take. apply Nat.eqb_neq. lia. }
  unfold GenerateVideoRoute.POST. simpl.
  rewrite take_take, Nat.min_id, Hz.
  split; [reflexivity|].
  destruct (is_empty (trim (default [] p))); simpl.
  - split; [|split; [reflexivity|split; [discriminate | reflexivity]]].
    intros H. apply (f_equal GenerateVideoRoute.body) in H.
    simpl in H. apply (f_equal (fun b => match b with
                                         | GenerateVideoRoute.ErrorBody e => length e
                                         | _ => 0%nat end)) in H.
    vm_compute in H. discriminate.
  - destruct (generateVideoWithGoogle _); simpl.
    + split; [intros H; apply (f_equal GenerateVideoRoute.status) in H; discriminate|].
      split; [reflexivity|]. split; [|discriminate].
      intros _. split; [discriminate | reflexivity].
    + split; [intros H; apply (f_equal GenerateVideoRoute.status) in H; discriminate|].
      split; [reflexivity|]. split; [|discriminate].
      intros _. split; [discriminate | reflexivity].
Qed.

End Validation.

(* ===================================================================== *)
(** * The example session *)
(* ===================================================================== *)

Lemma deferredSession_reachable : reachable v8 (after deferredSession).
Proof. exists deferredSession. vm_compute. reflexivity. Qed.

Lemma submittedSession_reachable : reachable v8 (after submittedSession).
Proof. exists submittedSession. vm_compute. reflexivity. Qed.

(** After the handle arrived the page polls: one status fetch is open and
    one interval is active. *)
Example deferredSession_polls :
  polling (state (after deferredSession)) = true /\
  pollTimerRef (after deferredSession) = Some 1%positive /\
  size (statusFetches (after deferredSession)) = 1%nat /\
  calls (after deferredSession) =
  [ GetStatus (lit "/api/operations/op-123");
    PostGenerateVideo
      {| body_prompt := lit "a sunset over the sea";
         body_referenceImages :=
           [ {| ref_name := lit "sunset.png";
                ref_dataUrl := lit "data:image/png;base64,iVBORw0KGgo=" |} ] |} ].
Proof. vm_compute. repeat split. Qed.

(** Against C2 as the specification words it: the status fetch of the
    session rejects, and the [operationId] is still stored afterwards. *)
Lemma failed_poll_keeps_operationId :
  step v8 (after deferredSession)
    (StatusSettled 1 (StatusRejected (ErrorObject (lit "Failed to fetch")))) =
  Some (after failedSession) /\
  errorMessage (state (after failedSession)) = Some (lit "Failed to fetch") /\
  operationId (state (after failedSession)) = Some (lit "op-123") /\
  operationId (state (after failedSession)) <> None.
Proof. vm_compute. repeat split. discriminate. Qed.

(** Against C5 as the specification words it: the interval elapses while
    the first status fetch is open, and a second one is issued; two are
    open. *)
Lemma interval_elapses_with_fetch_open :
  size (statusFetches (after deferredSession)) = 1%nat /\
  step v8 (after deferredSession) (IntervalElapsed 1%positive) =
  Some (after overlappingSession) /\
  size (statusFetches (after overlappingSession)) = 2%nat /\
  calls (after overlappingSession) =
  GetStatus (lit "/api/operations/op-123") :: calls (after deferredSession).
Proof. vm_compute. repeat split. Qed.

(** Against C8 as the specification words it: the status payload is
    [{ done: "false" }], whose [done] is not a boolean, and the page takes
    the operation for complete: [polling] is cleared and the timer
    stopped. *)
Lemma string_done_completes :
  polling (state (after deferredSession)) = true /\
  pollTimerRef (after deferredSession) = Some 1%positive /\
  step v8 (after deferredSession)
    (StatusSettled 1
       (StatusResponse 200 (Normal (JObj [(lit "done", JStr (lit "false"))])))) =
  Some (after truthySession) /\
  polling (state (after truthySession)) = false /\
  pollTimerRef (after truthySession) = None /\
  intervals (after truthySession) = ∅.
Proof. vm_compute. repeat split. Qed.



(** Against C10 as the specification words it: five reference images and
    a prompt of two spaces.  The request is rejected, with the 400 for
    the prompt, and nothing is forwarded to the provider. *)
Lemma long_list_with_blank_prompt_is_rejected :
  (4 < length [1; 2; 3; 4; 5]%nat)%nat /\
  GenerateVideoRoute.POST GenerateVideoRoute.stubProvider
    (Normal {| GenerateVideoRoute.prompt := Some (lit "  ");
               GenerateVideoRoute.referenceImages := Some [1; 2; 3; 4; 5]%nat |}) =
  ({| GenerateVideoRoute.status := 400;
      GenerateVideoRoute.body := GenerateVideoRoute.ErrorBody (lit "Prompt is required.") |},
   []) /\
  snd (GenerateVideoRoute.POST GenerateVideoRoute.stubProvider
         (Normal {| GenerateVideoRoute.prompt := Some (lit "  ");
                    GenerateVideoRoute.referenceImages := Some [1; 2; 3; 4; 5]%nat |})) = [].
Proof. vm_compute. repeat split. lia. Qed.

(** The handle the page puts in the URL is the one the route looks up. *)
Example status_route_looks_up_the_handle :
  (statusUrl <$> encodeURIComponent (lit "op-123")) = Some (lit "/api/operations/op-123") /\
  OperationsRoute.GET v8 OperationsRoute.finishedProvider (Normal (lit "op-123")) =
  ({| OperationsRoute.status := 200;
      OperationsRoute.body := OperationsRoute.StatusBody (JObj [(lit "done", JBool true)]) |},
   [lit "op-123"]).
Proof. vm_compute. split; reflexivity. Qed.

(** ** The theorems at the session *)

Lemma deferred_then_done_completes_session :
  polling (state (after doneSession)) = false /\
  operationStatus (state (after doneSession)) = JObj [(lit "done", JBool true)] /\
  pollTimerRef (after doneSession) = None /\
  intervals (after doneSession) = ∅.
Proof.
  destruct (deferred_then_done_completes v8
              (after submittedSession) (after deferredSession)
              (after deferredSession) (after doneSession)
              0 1 200 (lit "op-123") (JObj [(lit "done", JBool false)])
              (JObj [(lit "done", JBool true)]) [])
    as (H1 & H2 & H3 & H4 & _).
  - exists submittedSession. vm_compute. reflexivity.
  - vm_compute. reflexivity.
  - vm_compute. reflexivity.
  - vm_compute. reflexivity.
  - vm_compute. reflexivity.
  - vm_compute. reflexivity.
  - exact (conj H1 (conj H2 (conj H3 H4))).
Defined.

Lemma poll_failure_stops_polling_session :
  pollTimerRef (after failedSession) = None /\
  intervals (after failedSession) = ∅ /\
  polling (state (after failedSession)) = false /\
  errorMessage (state (after failedSession)) = Some (lit "Failed to fetch").
Proof.
  destruct (poll_failure_stops_polling v8
              (after deferredSession) (after failedSession) 1
              (StatusRejected (ErrorObject (lit "Failed to fetch")))
              (lit "Failed to fetch"))
    as (H1 & H2 & H3 & H4 & _).
  - exists deferredSession. vm_compute. reflexivity.
  - exact (QueryRejected (ErrorObject (lit "Failed to fetch"))).
  - vm_compute. reflexivity.
  - exact (conj H1 (conj H2 (conj H3 H4))).
Defined.

Lemma one_timer_one_fetch_per_interval_session :
  (size (intervals (after deferredSession)) <= 1)%nat /\
  pollTimerRef (after deferredSession) = Some 1%positive.
Proof.
  destruct (one_timer_one_fetch_per_interval v8 (after deferredSession))
    as (H1 & H2).
  - exists deferredSession. vm_compute. reflexivity.
  - split; [exact H1|].
    destruct (H2 1%positive (after overlappingSession)) as (H3 & _).
    + vm_compute. reflexivity.
    + exact H3.
Defined.


Lemma done_is_tested_for_truthiness_session :
  operationStatus (state (after pendingSession)) = JObj [] /\
  polling (state (after pendingSession)) = polling (state (after deferredSession)) /\
  pollTimerRef (after pendingSession) = pollTimerRef (after deferredSession).
Proof.
  destruct (done_is_tested_for_truthiness v8
              (after deferredSession) (after pendingSession) 1 200 (JObj []) None)
    as (H1 & H2 & H3 & _).
  - vm_compute. reflexivity.
  - vm_compute. reflexivity.
  - vm_compute. reflexivity.
  - exact (conj H1 (conj H2 H3)).
Defined.



Lemma long_image_list_is_truncated_session :
  GenerateVideoRoute.POST GenerateVideoRoute.stubProvider
    (Normal {| GenerateVideoRoute.prompt := Some (lit " sea ");
               GenerateVideoRoute.referenceImages := Some [1; 2; 3; 4; 5; 6]%nat |}) =
  GenerateVideoRoute.POST GenerateVideoRoute.stubProvider
    (Normal {| GenerateVideoRoute.prompt := Some (lit " sea ");
               GenerateVideoRoute.referenceImages := Some [1; 2; 3; 4]%nat |}) /\
  snd (GenerateVideoRoute.POST GenerateVideoRoute.stubProvider
         (Normal {| GenerateVideoRoute.prompt := Some (lit " sea ");
                    GenerateVideoRoute.referenceImages := Some [1; 2; 3; 4; 5; 6]%nat |})) =
  [ {| GenerateVideoRoute.call_prompt := lit "sea";
       GenerateVideoRoute.call_referenceImages := [1; 2; 3; 4]%nat |} ] /\
  GenerateVideoRoute.status
    (fst (GenerateVideoRoute.POST GenerateVideoRoute.stubProvider
            (Normal {| GenerateVideoRoute.prompt := Some (lit " sea ");
                       GenerateVideoRoute.referenceImages := Some [1; 2; 3; 4; 5; 6]%nat |}))) <>
  400%nat.
Proof.
  destruct (long_image_list_is_truncated GenerateVideoRoute.stubProvider
              (Some (lit " sea ")) [1; 2; 3; 4; 5; 6]%nat)
    as (H1 & _ & H3 & H4 & _).
  - simpl. lia.
  - destruct H4 as [H4 _]; [vm_compute; reflexivity|].
    split; [exact H1|]. split; [|exact H4].
    rewrite H3. vm_compute. reflexivity.
Defined.

(* ===================================================================== *)
(** * More about [trim] *)
(* ===================================================================== *)

Lemma trimStart_app_kept (l r : jsstring) (c : N) :
  isWhiteSpace c = false -> trimStart (l ++ c :: r) = trimStart l ++ c :: r.
Proof.
  intros Hc. induction l as [|d l IH]; simpl.
  - rewrite Hc. reflexivity.
  - destruct (isWhiteSpace d); [exact IH | reflexivity].
Qed.

Lemma trimStart_idempotent (s : jsstring) : trimStart (trimStart s) = trimStart s.
Proof.
  induction s as [|c s IH]; simpl; [reflexivity|].
  destruct (isWhiteSpace c) eqn:Hc; [exact IH|]. simpl. rewrite Hc. reflexivity.
Qed.

Lemma trimEnd_idempotent (s : jsstring) : trimEnd (trimEnd s) = trimEnd s.
Proof. unfold trimEnd. rewrite rev_involutive, trimStart_idempotent. reflexivity. Qed.

Lemma trimEnd_cons_kept (c : N) (s : jsstring) :
  isWhiteSpace c = false -> trimEnd (c :: s) = c :: trimEnd s.
Proof.
  intros Hc. unfold trimEnd. simpl.
  rewrite (trimStart_app_kept (rev s) [] c Hc), rev_app_distr. reflexivity.
Qed.

(** [trim] of a string that is not blank starts with a code unit that is
    not white space. *)
Lemma trim_cases (s : jsstring) :
  trim s = [] \/
  exists c t, isWhiteSpace c = false /\ trimStart s = c :: t /\ trim s = c :: trimEnd t.
Proof.
  unfold trim. destruct (trimStart s) as [|c t] eqn:Hs; [left; reflexivity|].
  right. exists c, t. pose proof (trimStart_head s c t Hs) as Hc.
  rewrite (trimEnd_cons_kept c t Hc). auto.
Qed.

Lemma trim_idempotent (s : jsstring) : trim (trim s) = trim s.
Proof.
  destruct (trim_cases s) as [-> | (c & t & Hc & _ & ->)]; [reflexivity|].
  unfold trim at 1. simpl. rewrite Hc.
  rewrite (trimEnd_cons_kept c _ Hc), trimEnd_idempotent. reflexivity.
Qed.

(* ===================================================================== *)
(** * More about the routes *)
(* ===================================================================== *)

Section RouteFacts.

Variable E : Engine.
Context {ReferenceImagePayload : Type}.
Variable generateVideoWithGoogle :
  @GenerateVideoRoute.ProviderCall ReferenceImagePayload ->
  Completion GenerateVideoRoute.GenerateVideoResponse.
Variable getOperationStatus : jsstring -> Completion Json.

(** X1.  [POST] calls the provider at most once, and what it passes is
    always valid: the prompt is the trimmed prompt of the request, not
    empty, with no white space to trim left, and the images are the first
    four of the request at most, at least one. *)
Theorem POST_calls_provider_with_valid_request
    (request_json : Completion (@GenerateVideoRoute.RequestPayload ReferenceImagePayload)) :
  (length (snd (GenerateVideoRoute.POST generateVideoWithGoogle request_json)) <= 1)%nat /\
  forall call,
    In call (snd (GenerateVideoRoute.POST generateVideoWithGoogle request_json)) ->
    exists body,
      request_json = Normal body /\
      GenerateVideoRoute.call_prompt call = trim (default [] (GenerateVideoRoute.prompt body)) /\
      GenerateVideoRoute.call_prompt call <> [] /\
      trim (GenerateVideoRoute.call_prompt call) = GenerateVideoRoute.call_prompt call /\
      GenerateVideoRoute.call_referenceImages call =
        take 4 (default [] (GenerateVideoRoute.referenceImages body)) /\
      (1 <= length (GenerateVideoRoute.call_referenceImages call) <= 4)%nat.
Proof.
  unfold GenerateVideoRoute.POST.
  destruct request_json as [body | e]; [|split; [simpl; lia | intros c []]].
  destruct (is_empty _) eqn:Hp; [split; [simpl; lia | intros c []]|].
  destruct (Nat.eqb _ 0) eqn:Hn; [split; [simpl; lia | intros c []]|].
  apply is_empty_false in Hp. apply Nat.eqb_neq in Hn.
  assert (Hcall : forall call,
    In call [ {| GenerateVideoRoute.call_prompt :=
                   trim (default [] (GenerateVideoRoute.prompt body));
                 GenerateVideoRoute.call_referenceImages :=
                   take 4 (default [] (GenerateVideoRoute.referenceImages body)) |} ] ->
    exists body0,
      Normal body = Normal body0 /\
      GenerateVideoRoute.call_prompt call = trim (default [] (GenerateVideoRoute.prompt body0)) /\
      GenerateVideoRoute.call_prompt call <> [] /\
      trim (GenerateVideoRoute.call_prompt call) = GenerateVideoRoute.call_prompt call /\
      GenerateVideoRoute.call_referenceImages call =
        take 4 (default [] (GenerateVideoRoute.referenceImages body0)) /\
      (1 <= length (GenerateVideoRoute.call_referenceImages call) <= 4)%nat).
  { intros call [<- | []]. exists body. simpl.
    repeat split; try assumption.
    - apply trim_idempotent.
    - lia.
    - rewrite length_take. lia. }
  destruct (generateVideoWithGoogle _); (split; [simpl; lia | exact Hcall]).
Qed.

(** X2.  [POST] answers 200, 400 or 500.  It answers 200 exactly when it
    called the provider and the provider gave a result, which is then the
    body as it is; it answers 400 only without having called the
    provider. *)
Theorem POST_status_tells_the_outcome
    (request_json : Completion (@GenerateVideoRoute.RequestPayload ReferenceImagePayload)) :
  let response := fst (GenerateVideoRoute.POST generateVideoWithGoogle request_json) in
  let made := snd (GenerateVideoRoute.POST generateVideoWithGoogle request_json) in
  (GenerateVideoRoute.status response = 200 \/
   GenerateVideoRoute.status response = 400 \/
   GenerateVideoRoute.status response = 500)%nat /\
  (GenerateVideoRoute.status response = 200%nat <->
   exists call result,
     made = [call] /\ generateVideoWithGoogle call = Normal result /\
     GenerateVideoRoute.body response = GenerateVideoRoute.ResultBody result) /\
  (GenerateVideoRoute.status response = 400%nat -> made = []) /\
  (GenerateVideoRoute.status response <> 200%nat ->
   exists text, GenerateVideoRoute.body response = GenerateVideoRoute.ErrorBody text).
Proof.
  unfold GenerateVideoRoute.POST.
  destruct request_json as [body | e]; simpl.
  2:{ repeat split; auto; try discriminate.
      - intros (c & r & H & _). discriminate.
      - intros _. eauto. }
  destruct (is_empty _); simpl.
  { repeat split; auto; try discriminate.
    - intros (c & r & H & _). discriminate.
    - intros _. eauto. }
  destruct (Nat.eqb _ 0); simpl.
  { repeat split; auto; try discriminate.
    - intros (c & r & H & _). discriminate.
    - intros _. eauto. }
  destruct (generateVideoWithGoogle _) as [result | e] eqn:Hg; simpl.
  - repeat split; auto; try discriminate.
    + intros _. eauto.
    + intros H. congruence.
  - repeat split; auto; try discriminate.
    + intros (c & r & [= <-] & Hc & _). congruence.
    + intros _. eauto.
Qed.

(** X3.  White space around the prompt makes no difference to [POST]:
    the request with the prompt already trimmed is answered the same and
    reaches the provider the same. *)
Theorem POST_ignores_white_space_around_prompt
    (p : jsstring) (imgs : option (list ReferenceImagePayload)) :
  GenerateVideoRoute.POST generateVideoWithGoogle
    (Normal {| GenerateVideoRoute.prompt := Some p;
               GenerateVideoRoute.referenceImages := imgs |}) =
  GenerateVideoRoute.POST generateVideoWithGoogle
    (Normal {| GenerateVideoRoute.prompt := Some (trim p);
               GenerateVideoRoute.referenceImages := imgs |}).
Proof. unfold GenerateVideoRoute.POST. simpl. rewrite trim_idempotent. reflexivity. Qed.

(** X4.  [GET] answers 200, 400 or 500 and looks up at most one handle.
    It answers 200 exactly when the lookup gave a payload, and the body
    is then that payload as it is, whatever its [done]; it answers 400
    exactly for the empty handle. *)
Theorem GET_status_tells_the_outcome (params : Completion jsstring) :
  let response := fst (OperationsRoute.GET E getOperationStatus params) in
  let made := snd (OperationsRoute.GET E getOperationStatus params) in
  (OperationsRoute.status response = 200 \/
   OperationsRoute.status response = 400 \/
   OperationsRoute.status response = 500)%nat /\
  (length made <= 1)%nat /\
  (OperationsRoute.status response = 200%nat <->
   exists handle payload,
     made = [handle] /\ getOperationStatus handle = Normal payload /\
     OperationsRoute.body response = OperationsRoute.StatusBody payload) /\
  (OperationsRoute.status response = 400%nat <-> params = Normal []).
Proof.
  unfold OperationsRoute.GET.
  destruct params as [[|c rest] | e]; simpl.
  - repeat split; auto; try discriminate.
    intros (h & p & H & _). discriminate.
  - destruct (decodeURIComponent (c :: rest)) as [d|]; simpl.
    + destruct (getOperationStatus d) as [payload | e] eqn:Hg; simpl.
      * repeat split; auto; try discriminate. intros _. eauto.
      * repeat split; auto; try discriminate.
        intros (h & p & [= <-] & Hh & _). congruence.
    + repeat split; auto; try discriminate.
      intros (h & p & H & _). discriminate.
  - repeat split; auto; try discriminate.
    intros (h & p & H & _). discriminate.
Qed.

End RouteFacts.

(* ===================================================================== *)
(** * The URI coders undo each other *)
(* ===================================================================== *)

(** Checking a property of the numbers below a bound by running through
    them. *)
Lemma below_forallb (P : N -> bool) (n : nat) :
  forallb P (map N.of_nat (seq 0 n)) = true ->
  forall x, x < N.of_nat n -> P x = true.
Proof.
  intros H x Hx. rewrite forallb_forall in H. apply H.
  apply in_map_iff. exists (N.to_nat x). split; [apply N2Nat.id|].
  apply in_seq. lia.
Qed.

Lemma lor_128 x : x < 64 -> N.lor 128 x = 128 + x.
Proof.
  intros H. apply N.eqb_eq. revert x H.
  apply (below_forallb (fun x => N.lor 128 x =? 128 + x) 64). vm_compute. reflexivity.
Qed.

Lemma lor_192 x : x < 32 -> N.lor 192 x = 192 + x.
Proof.
  intros H. apply N.eqb_eq. revert x H.
  apply (below_forallb (fun x => N.lor 192 x =? 192 + x) 32). vm_compute. reflexivity.
Qed.

Lemma lor_224 x : x < 16 -> N.lor 224 x = 224 + x.
Proof.
  intros H. apply N.eqb_eq. revert x H.
  apply (below_forallb (fun x => N.lor 224 x =? 224 + x) 16). vm_compute. reflexivity.
Qed.

Lemma lor_240 x : x < 8 -> N.lor 240 x = 240 + x.
Proof.
  intros H. apply N.eqb_eq. revert x H.
  apply (below_forallb (fun x => N.lor 240 x =? 240 + x) 8). vm_compute. reflexivity.
Qed.

Lemma land_128 x : x < 64 -> N.land (128 + x) 63 = x.
Proof.
  intros H. apply N.eqb_eq. revert x H.
  apply (below_forallb (fun x => N.land (128 + x) 63 =? x) 64). vm_compute. reflexivity.
Qed.

Lemma land_192 x : x < 32 -> N.land (192 + x) 31 = x.
Proof.
  intros H. apply N.eqb_eq. revert x H.
  apply (below_forallb (fun x => N.land (192 + x) 31 =? x) 32). vm_compute. reflexivity.
Qed.

Lemma land_224 x : x < 16 -> N.land (224 + x) 15 = x.
Proof.
  intros H. apply N.eqb_eq. revert x H.
  apply (below_forallb (fun x => N.land (224 + x) 15 =? x) 16). vm_compute. reflexivity.
Qed.

Lemma land_240 x : x < 8 -> N.land (240 + x) 7 = x.
Proof.
  intros H. apply N.eqb_eq. revert x H.
  apply (below_forallb (fun x => N.land (240 + x) 7 =? x) 8). vm_compute. reflexivity.
Qed.

Lemma hexValue_hexDigit n : n < 16 -> hexValue (hexDigit n) = Some n.
Proof.
  intros H.
  assert (Hb : (match hexValue (hexDigit n) with Some m => m =? n | None => false end) = true).
  { revert n H.
    apply (below_forallb
             (fun n => match hexValue (hexDigit n) with Some m => m =? n | None => false end) 16).
    vm_compute. reflexivity. }
  destruct (hexValue (hexDigit n)) as [m|]; [|discriminate].
  apply N.eqb_eq in Hb. congruence.
Qed.

Lemma hexDigit_unescaped n : n < 16 -> isUnescaped (hexDigit n) = true.
Proof.
  revert n. apply (below_forallb (fun n => isUnescaped (hexDigit n)) 16).
  vm_compute. reflexivity.
Qed.

(** Shifts and masks as quotients and remainders. *)
Lemma shiftr_div (a : N) (n : N) : N.shiftr a n = a / 2 ^ n.
Proof. apply N.shiftr_div_pow2. Qed.

Lemma land_63 a : N.land a 63 = a mod 64.
Proof. change 63 with (N.ones 6). rewrite N.land_ones. reflexivity. Qed.

Lemma land_15 a : N.land a 15 = a mod 16.
Proof. change 15 with (N.ones 4). rewrite N.land_ones. reflexivity. Qed.

Lemma land_1023 a : N.land a 1023 = a mod 1024.
Proof. change 1023 with (N.ones 10). rewrite N.land_ones. reflexivity. Qed.

Lemma div_mod_by (a b : N) :
  b <> 0 -> exists q r, a / b = q /\ a mod b = r /\ a = b * q + r /\ r < b.
Proof.
  intros Hb. exists (a / b), (a mod b).
  repeat split; [apply N.div_mod; exact Hb | apply N.mod_lt; exact Hb].
Qed.

(** The octets of [utf8], by the size of the code point, in terms of
    its digits to the base 64. *)
Lemma utf8_1 cp : cp < 128 -> utf8 cp = [cp].
Proof. intros H. unfold utf8. apply N.ltb_lt in H. rewrite H. reflexivity. Qed.

Lemma utf8_2 cp :
  128 <= cp < 2048 ->
  exists x0 x1,
    x0 < 32 /\ x1 < 64 /\ cp = 64 * x0 + x1 /\
    utf8 cp = [192 + x0; 128 + x1].
Proof.
  intros [H1 H2]. unfold utf8.
  assert (T1 : (cp <? 128) = false) by (apply N.ltb_ge; lia).
  assert (T2 : (cp <? 2048) = true) by (apply N.ltb_lt; lia).
  rewrite T1, T2, shiftr_div, land_63. change (2 ^ 6) with 64.
  destruct (div_mod_by cp 64) as (q & r & -> & -> & Hd & Hm); [lia|].
  exists q, r. rewrite lor_192 by lia. rewrite lor_128 by lia.
  repeat split; try lia.
Qed.

Lemma utf8_3 cp :
  2048 <= cp < 65536 ->
  exists x0 x1 x2,
    x0 < 16 /\ x1 < 64 /\ x2 < 64 /\ cp = 4096 * x0 + 64 * x1 + x2 /\
    utf8 cp = [224 + x0; 128 + x1; 128 + x2].
Proof.
  intros [H1 H2]. unfold utf8.
  assert (T1 : (cp <? 128) = false) by (apply N.ltb_ge; lia).
  assert (T2 : (cp <? 2048) = false) by (apply N.ltb_ge; lia).
  assert (T3 : (cp <? 65536) = true) by (apply N.ltb_lt; lia).
  rewrite T1, T2, T3, !shiftr_div, !land_63.
  change (2 ^ 6) with 64. change (2 ^ 12) with 4096.
  destruct (div_mod_by cp 4096) as (q & r & -> & _ & Hd & Hm); [lia|].
  destruct (div_mod_by cp 64) as (q1 & r1 & -> & -> & Hd1 & Hm1); [lia|].
  destruct (div_mod_by q1 64) as (q2 & r2 & _ & -> & Hd2 & Hm2); [lia|].
  exists q, r2, r1. rewrite lor_224 by lia. rewrite !lor_128 by lia.
  repeat split; try lia.
Qed.

Lemma utf8_4 cp :
  65536 <= cp < 2097152 ->
  exists x0 x1 x2 x3,
    x0 < 8 /\ x1 < 64 /\ x2 < 64 /\ x3 < 64 /\
    cp = 262144 * x0 + 4096 * x1 + 64 * x2 + x3 /\
    utf8 cp = [240 + x0; 128 + x1; 128 + x2; 128 + x3].
Proof.
  intros [H1 H2]. unfold utf8.
  assert (T1 : (cp <? 128) = false) by (apply N.ltb_ge; lia).
  assert (T2 : (cp <? 2048) = false) by (apply N.ltb_ge; lia).
  assert (T3 : (cp <? 65536) = false) by (apply N.ltb_ge; lia).
  rewrite T1, T2, T3, !shiftr_div, !land_63.
  change (2 ^ 6) with 64. change (2 ^ 12) with 4096. change (2 ^ 18) with 262144.
  destruct (div_mod_by cp 262144) as (q & r & -> & _ & Hd & Hm); [lia|].
  destruct (div_mod_by cp 4096) as (q3 & r3 & -> & _ & Hd3 & Hm3); [lia|].
  destruct (div_mod_by q3 64) as (q4 & r4 & _ & -> & Hd4 & Hm4); [lia|].
  destruct (div_mod_by cp 64) as (q1 & r1 & -> & -> & Hd1 & Hm1); [lia|].
  destruct (div_mod_by q1 64) as (q2 & r2 & _ & -> & Hd2 & Hm2); [lia|].
  exists q, r4, r2, r1. rewrite lor_240 by lia. rewrite !lor_128 by lia.
  repeat split; try lia.
Qed.

(** Every octet of a code point below 2^21 is an octet. *)
Lemma utf8_octets cp : cp < 2097152 -> Forall (fun b => b < 256) (utf8 cp).
Proof.
  intros H.
  destruct (N.lt_ge_cases cp 128) as [H1|H1].
  { rewrite utf8_1 by exact H1. repeat constructor. lia. }
  destruct (N.lt_ge_cases cp 2048) as [H2|H2].
  { destruct (utf8_2 cp) as (x0 & x1 & ? & ? & _ & ->); [lia|].
    repeat constructor; lia. }
  destruct (N.lt_ge_cases cp 65536) as [H3|H3].
  { destruct (utf8_3 cp) as (x0 & x1 & x2 & ? & ? & ? & _ & ->); [lia|].
    repeat constructor; lia. }
  destruct (utf8_4 cp) as (x0 & x1 & x2 & x3 & ? & ? & ? & ? & _ & ->); [lia|].
  repeat constructor; lia.
Qed.

(** ** Escapes are read back as their octets *)

Lemma unescape_percent (b : N) (enc : jsstring) :
  b < 256 -> unescape (percent b ++ enc) = cons (Octet b) <$> unescape enc.
Proof.
  intros Hb. unfold percent. rewrite shiftr_div, land_15. change (2 ^ 4) with 16.
  destruct (div_mod_by b 16) as (q & r & -> & -> & Hd & Hm); [lia|].
  cbn [app unescape]. change (37 =? 37) with true. cbn iota.
  rewrite !hexValue_hexDigit by lia. subst b. reflexivity.
Qed.

Lemma unescape_percents (bs : list N) (enc : jsstring) :
  Forall (fun b => b < 256) bs ->
  unescape (concat (map percent bs) ++ enc) = app (map Octet bs) <$> unescape enc.
Proof.
  induction 1 as [|b bs Hb _ IH]; cbn [map concat].
  - cbn [app]. destruct (unescape enc); reflexivity.
  - rewrite <- app_assoc, unescape_percent by exact Hb. rewrite IH.
    destruct (unescape enc); reflexivity.
Qed.

Lemma isUnescaped_not_percent c : isUnescaped c = true -> (c =? 37) = false.
Proof.
  intros H. destruct (N.eqb_spec c 37) as [->|]; [|reflexivity].
  vm_compute in H. discriminate.
Qed.

Lemma unescape_unescaped (c : N) (enc : jsstring) :
  isUnescaped c = true -> unescape (c :: enc) = cons (Unit c) <$> unescape enc.
Proof. intros H. cbn [unescape]. rewrite (isUnescaped_not_percent c H). reflexivity. Qed.

(** ** Well-formed octets are decoded to their code point *)

Lemma decodeOctets_Octet (b : N) (rest : list Token) :
  decodeOctets (Octet b :: rest) =
  if b <? 128 then cons b <$> decodeOctets rest
  else if b <? 192 then None
  else if b <? 224 then
    match rest with
    | t1 :: rest' =>
        match continuation t1 with
        | Some x1 =>
            let cp := N.land b 31 * 64 + x1 in
            if 128 <=? cp then app (utf16 cp) <$> decodeOctets rest' else None
        | None => None
        end
    | _ => None
    end
  else if b <? 240 then
    match rest with
    | t1 :: t2 :: rest' =>
        match continuation t1, continuation t2 with
        | Some x1, Some x2 =>
            let cp := N.land b 15 * 4096 + x1 * 64 + x2 in
            if (2048 <=? cp) && negb ((55296 <=? cp) && (cp <=? 57343))
            then app (utf16 cp) <$> decodeOctets rest' else None
        | _, _ => None
        end
    | _ => None
    end
  else if b <? 248 then
    match rest with
    | t1 :: t2 :: t3 :: rest' =>
        match continuation t1, continuation t2, continuation t3 with
        | Some x1, Some x2, Some x3 =>
            let cp := N.land b 7 * 262144 + x1 * 4096 + x2 * 64 + x3 in
            if (65536 <=? cp) && (cp <=? 1114111)
            then app (utf16 cp) <$> decodeOctets rest' else None
        | _, _, _ => None
        end
    | _ => None
    end
  else None.
Proof. reflexivity. Qed.

Lemma continuation_Octet x : x < 64 -> continuation (Octet (128 + x)) = Some x.
Proof.
  intros H. unfold continuation.
  assert (T1 : (128 <=? 128 + x) = true) by (apply N.leb_le; lia).
  assert (T2 : (128 + x <=? 191) = true) by (apply N.leb_le; lia).
  rewrite T1, T2, land_128 by exact H. reflexivity.
Qed.

Lemma decodeOctets_1 cp ts :
  cp < 128 -> decodeOctets (Octet cp :: ts) = cons cp <$> decodeOctets ts.
Proof.
  intros H. rewrite decodeOctets_Octet. apply N.ltb_lt in H. rewrite H. reflexivity.
Qed.

Lemma decodeOctets_2 x0 x1 ts :
  x0 < 32 -> x1 < 64 -> 128 <= 64 * x0 + x1 ->
  decodeOctets (Octet (192 + x0) :: Octet (128 + x1) :: ts) =
  app (utf16 (64 * x0 + x1)) <$> decodeOctets ts.
Proof.
  intros H0 H1 Hcp. rewrite decodeOctets_Octet.
  assert (T1 : (192 + x0 <? 128) = false) by (apply N.ltb_ge; lia).
  assert (T2 : (192 + x0 <? 192) = false) by (apply N.ltb_ge; lia).
  assert (T3 : (192 + x0 <? 224) = true) by (apply N.ltb_lt; lia).
  rewrite T1, T2, T3, continuation_Octet, land_192 by assumption. cbv zeta.
  replace (x0 * 64 + x1) with (64 * x0 + x1) by lia.
  assert (T4 : (128 <=? 64 * x0 + x1) = true) by (apply N.leb_le; lia).
  rewrite T4. reflexivity.
Qed.

Lemma decodeOctets_3 x0 x1 x2 ts :
  x0 < 16 -> x1 < 64 -> x2 < 64 ->
  2048 <= 4096 * x0 + 64 * x1 + x2 ->
  ~ (55296 <= 4096 * x0 + 64 * x1 + x2 <= 57343) ->
  decodeOctets (Octet (224 + x0) :: Octet (128 + x1) :: Octet (128 + x2) :: ts) =
  app (utf16 (4096 * x0 + 64 * x1 + x2)) <$> decodeOctets ts.
Proof.
  intros H0 H1 H2 Hcp Hs. rewrite decodeOctets_Octet.
  assert (T1 : (224 + x0 <? 128) = false) by (apply N.ltb_ge; lia).
  assert (T2 : (224 + x0 <? 192) = false) by (apply N.ltb_ge; lia).
  assert (T3 : (224 + x0 <? 224) = false) by (apply N.ltb_ge; lia).
  assert (T4 : (224 + x0 <? 240) = true) by (apply N.ltb_lt; lia).
  rewrite T1, T2, T3, T4, !continuation_Octet, land_224 by assumption. cbv zeta.
  replace (x0 * 4096 + x1 * 64 + x2) with (4096 * x0 + 64 * x1 + x2) by lia.
  assert (T5 : (2048 <=? 4096 * x0 + 64 * x1 + x2) = true) by (apply N.leb_le; lia).
  assert (T6 : ((55296 <=? 4096 * x0 + 64 * x1 + x2)
                && (4096 * x0 + 64 * x1 + x2 <=? 57343)) = false).
  { apply andb_false_iff.
    destruct (N.leb_spec 55296 (4096 * x0 + 64 * x1 + x2)); [right | left; reflexivity].
    apply N.leb_gt. lia. }
  rewrite T5, T6. reflexivity.
Qed.

Lemma decodeOctets_4 x0 x1 x2 x3 ts :
  x0 < 8 -> x1 < 64 -> x2 < 64 -> x3 < 64 ->
  65536 <= 262144 * x0 + 4096 * x1 + 64 * x2 + x3 <= 1114111 ->
  decodeOctets (Octet (240 + x0) :: Octet (128 + x1) :: Octet (128 + x2)
                  :: Octet (128 + x3) :: ts) =
  app (utf16 (262144 * x0 + 4096 * x1 + 64 * x2 + x3)) <$> decodeOctets ts.
Proof.
  intros H0 H1 H2 H3 Hcp. rewrite decodeOctets_Octet.
  assert (T1 : (240 + x0 <? 128) = false) by (apply N.ltb_ge; lia).
  assert (T2 : (240 + x0 <? 192) = false) by (apply N.ltb_ge; lia).
  assert (T3 : (240 + x0 <? 224) = false) by (apply N.ltb_ge; lia).
  assert (T4 : (240 + x0 <? 240) = false) by (apply N.ltb_ge; lia).
  assert (T5 : (240 + x0 <? 248) = true) by (apply N.ltb_lt; lia).
  rewrite T1, T2, T3, T4, T5, !continuation_Octet, land_240 by assumption. cbv zeta.
  replace (x0 * 262144 + x1 * 4096 + x2 * 64 + x3)
    with (262144 * x0 + 4096 * x1 + 64 * x2 + x3) by lia.
  assert (T6 : (65536 <=? 262144 * x0 + 4096 * x1 + 64 * x2 + x3) = true)
    by (apply N.leb_le; lia).
  assert (T7 : (262144 * x0 + 4096 * x1 + 64 * x2 + x3 <=? 1114111) = true)
    by (apply N.leb_le; lia).
  rewrite T6, T7. reflexivity.
Qed.

(** The octets of a Unicode scalar value decode to its code units. *)
Lemma decodeOctets_utf8 cp ts :
  cp <= 1114111 -> ~ (55296 <= cp <= 57343) ->
  decodeOctets (map Octet (utf8 cp) ++ ts) = app (utf16 cp) <$> decodeOctets ts.
Proof.
  intros Hmax Hs.
  destruct (N.lt_ge_cases cp 128) as [H1|H1].
  { rewrite utf8_1 by exact H1. cbn [map app]. rewrite decodeOctets_1 by exact H1.
    unfold utf16. assert (T : (cp <? 65536) = true) by (apply N.ltb_lt; lia).
    rewrite T. reflexivity. }
  destruct (N.lt_ge_cases cp 2048) as [H2|H2].
  { destruct (utf8_2 cp) as (x0 & x1 & ? & ? & Hcp & ->); [lia|].
    cbn [map app]. rewrite decodeOctets_2 by lia. rewrite <- Hcp. reflexivity. }
  destruct (N.lt_ge_cases cp 65536) as [H3|H3].
  { destruct (utf8_3 cp) as (x0 & x1 & x2 & ? & ? & ? & Hcp & ->); [lia|].
    cbn [map app]. rewrite decodeOctets_3 by lia. rewrite <- Hcp. reflexivity. }
  destruct (utf8_4 cp) as (x0 & x1 & x2 & x3 & ? & ? & ? & ? & Hcp & ->); [lia|].
  cbn [map app]. rewrite decodeOctets_4 by lia. rewrite <- Hcp. reflexivity.
Qed.

(** ** The round trip *)

Lemma encodeURIComponent_cons (c : N) (rest : jsstring) :
  encodeURIComponent (c :: rest) =
  if isUnescaped c then cons c <$> encodeURIComponent rest
  else if isTrailSurrogate c then None
  else if isLeadSurrogate c then
    match rest with
    | c2 :: rest' =>
        if isTrailSurrogate c2
        then app (escape (surrogatePair c c2)) <$> encodeURIComponent rest'
        else None
    | [] => None
    end
  else app (escape c) <$> encodeURIComponent rest.
Proof. reflexivity. Qed.

Lemma isLeadSurrogate_range c : isLeadSurrogate c = true <-> 55296 <= c <= 56319.
Proof. unfold isLeadSurrogate. rewrite andb_true_iff, !N.leb_le. tauto. Qed.

Lemma isTrailSurrogate_range c : isTrailSurrogate c = true <-> 56320 <= c <= 57343.
Proof. unfold isTrailSurrogate. rewrite andb_true_iff, !N.leb_le. tauto. Qed.

Lemma not_surrogate c :
  isTrailSurrogate c = false -> isLeadSurrogate c = false -> ~ (55296 <= c <= 57343).
Proof.
  intros Ht Hl H.
  destruct (N.lt_ge_cases c 56320).
  - assert (isLeadSurrogate c = true) by (apply isLeadSurrogate_range; lia). congruence.
  - assert (isTrailSurrogate c = true) by (apply isTrailSurrogate_range; lia). congruence.
Qed.

(** A surrogate pair names a code point beyond the basic plane, and
    [utf16] splits that code point into the pair again. *)
Lemma surrogatePair_utf16 lead trail :
  isLeadSurrogate lead = true -> isTrailSurrogate trail = true ->
  65536 <= surrogatePair lead trail <= 1114111 /\
  utf16 (surrogatePair lead trail) = [lead; trail].
Proof.
  intros Hl Ht. apply isLeadSurrogate_range in Hl. apply isTrailSurrogate_range in Ht.
  unfold surrogatePair. split; [lia|]. unfold utf16.
  assert (T : ((lead - 55296) * 1024 + (trail - 56320) + 65536 <? 65536) = false)
    by (apply N.ltb_ge; lia).
  rewrite T, shiftr_div, land_1023. change (2 ^ 10) with 1024.
  replace ((lead - 55296) * 1024 + (trail - 56320) + 65536 - 65536)
    with (1024 * (lead - 55296) + (trail - 56320)) by lia.
  rewrite <- (N.div_unique (1024 * (lead - 55296) + (trail - 56320)) 1024
                (lead - 55296) (trail - 56320)) by lia.
  rewrite <- (N.mod_unique (1024 * (lead - 55296) + (trail - 56320)) 1024
                (lead - 55296) (trail - 56320)) by lia.
  f_equal; [lia | f_equal; lia].
Qed.

Lemma utf16_unit c : c < 65536 -> utf16 c = [c].
Proof. intros H. unfold utf16. apply N.ltb_lt in H. rewrite H. reflexivity. Qed.

(** Reading the escapes of an encoded string and decoding the octets
    gives the string back. *)
Lemma unescape_encodeURIComponent (n : nat) :
  forall s enc,
    (length s <= n)%nat -> wellFormed s -> encodeURIComponent s = Some enc ->
    exists ts, unescape enc = Some ts /\ decodeOctets ts = Some s.
Proof.
  induction n as [|n IH]; intros s enc Hn Hwf Henc.
  { destruct s; [|simpl in Hn; lia]. injection Henc as <-. exists []. auto. }
  destruct s as [|c rest]; [injection Henc as <-; exists []; auto|].
  rewrite encodeURIComponent_cons in Henc.
  apply Forall_cons in Hwf as [Hc Hwf]. simpl in Hn.
  destruct (isUnescaped c) eqn:Hu.
  { destruct (encodeURIComponent rest) as [enc'|] eqn:Hrest; [|discriminate].
    injection Henc as <-.
    destruct (IH rest enc') as (ts & Hts & Hdec); [lia | exact Hwf | exact Hrest |].
    exists (Unit c :: ts). rewrite unescape_unescaped, Hts by exact Hu.
    split; [reflexivity|]. cbn [decodeOctets]. rewrite Hdec. reflexivity. }
  destruct (isTrailSurrogate c) eqn:Ht; [discriminate|].
  destruct (isLeadSurrogate c) eqn:Hl.
  - destruct rest as [|c2 rest']; [discriminate|].
    destruct (isTrailSurrogate c2) eqn:Ht2; [|discriminate].
    destruct (encodeURIComponent rest') as [enc'|] eqn:Hrest; [|discriminate].
    injection Henc as <-.
    apply Forall_cons in Hwf as [_ Hwf]. simpl in Hn.
    destruct (IH rest' enc') as (ts & Hts & Hdec); [lia | exact Hwf | exact Hrest |].
    destruct (surrogatePair_utf16 c c2 Hl Ht2) as [Hr Hp].
    exists (map Octet (utf8 (surrogatePair c c2)) ++ ts).
    unfold escape. rewrite unescape_percents, Hts by (apply utf8_octets; lia).
    split; [reflexivity|].
    rewrite decodeOctets_utf8, Hdec, Hp by lia. reflexivity.
  - destruct (encodeURIComponent rest) as [enc'|] eqn:Hrest; [|discriminate].
    injection Henc as <-.
    destruct (IH rest enc') as (ts & Hts & Hdec); [lia | exact Hwf | exact Hrest |].
    pose proof (not_surrogate c Ht Hl) as Hns.
    exists (map Octet (utf8 c) ++ ts).
    unfold escape. rewrite unescape_percents, Hts by (apply utf8_octets; lia).
    split; [reflexivity|].
    rewrite decodeOctets_utf8, Hdec, utf16_unit by lia. reflexivity.
Qed.

Lemma decode_encode (s enc : jsstring) :
  wellFormed s -> encodeURIComponent s = Some enc -> decodeURIComponent enc = Some s.
Proof.
  intros Hwf Henc.
  destruct (unescape_encodeURIComponent (length s) s enc) as (ts & Hts & Hdec); auto.
  unfold decodeURIComponent. rewrite Hts. exact Hdec.
Qed.

(** ** What an encoded string is made of *)

Lemma percent_urlSafe b : b < 256 -> Forall urlSafe (percent b).
Proof.
  intros Hb. unfold percent. rewrite shiftr_div, land_15. change (2 ^ 4) with 16.
  destruct (div_mod_by b 16) as (q & r & -> & -> & Hd & Hm); [lia|].
  apply Forall_cons_2; [right; reflexivity|].
  apply Forall_cons_2; [left; apply hexDigit_unescaped; lia|].
  apply Forall_cons_2; [left; apply hexDigit_unescaped; lia|].
  constructor.
Qed.

Lemma escape_urlSafe cp : cp < 2097152 -> Forall urlSafe (escape cp).
Proof.
  intros H. unfold escape. pose proof (utf8_octets cp H) as Hb.
  induction Hb as [|b bs Hb _ IH]; cbn [map concat]; [constructor|].
  apply Forall_app. split; [apply percent_urlSafe, Hb | exact IH].
Qed.

Lemma escape_not_nil cp : escape cp <> [].
Proof.
  unfold escape, utf8.
  destruct (cp <? 128); [discriminate|].
  destruct (cp <? 2048); [discriminate|].
  destruct (cp <? 65536); discriminate.
Qed.

Lemma encodeURIComponent_urlSafe (n : nat) :
  forall s enc,
    (length s <= n)%nat -> wellFormed s -> encodeURIComponent s = Some enc ->
    Forall urlSafe enc /\ (s <> [] -> enc <> []).
Proof.
  induction n as [|n IH]; intros s enc Hn Hwf Henc.
  { destruct s; [|simpl in Hn; lia]. injection Henc as <-. split; [constructor | congruence]. }
  destruct s as [|c rest]; [injection Henc as <-; split; [constructor | congruence]|].
  rewrite encodeURIComponent_cons in Henc.
  apply Forall_cons in Hwf as [Hc Hwf]. simpl in Hn.
  destruct (isUnescaped c) eqn:Hu.
  { destruct (encodeURIComponent rest) as [enc'|] eqn:Hrest; [|discriminate].
    injection Henc as <-.
    destruct (IH rest enc') as [Hs _]; [lia | exact Hwf | exact Hrest |].
    split; [|discriminate]. constructor; [left; exact Hu | exact Hs]. }
  destruct (isTrailSurrogate c) eqn:Ht; [discriminate|].
  destruct (isLeadSurrogate c) eqn:Hl.
  - destruct rest as [|c2 rest']; [discriminate|].
    destruct (isTrailSurrogate c2) eqn:Ht2; [|discriminate].
    destruct (encodeURIComponent rest') as [enc'|] eqn:Hrest; [|discriminate].
    injection Henc as <-.
    apply Forall_cons in Hwf as [_ Hwf]. simpl in Hn.
    destruct (IH rest' enc') as [Hs _]; [lia | exact Hwf | exact Hrest |].
    destruct (surrogatePair_utf16 c c2 Hl Ht2) as [Hr _].
    split.
    + apply Forall_app. split; [apply escape_urlSafe; lia | exact Hs].
    + intros _ H. apply app_eq_nil in H as [H _]. exact (escape_not_nil _ H).
  - destruct (encodeURIComponent rest) as [enc'|] eqn:Hrest; [|discriminate].
    injection Henc as <-.
    destruct (IH rest enc') as [Hs _]; [lia | exact Hwf | exact Hrest |].
    split.
    + apply Forall_app. split; [apply escape_urlSafe; lia | exact Hs].
    + intros _ H. apply app_eq_nil in H as [H _]. exact (escape_not_nil _ H).
Qed.

(** ** What [decodeURIComponent] does to a handle *)

Lemma unescape_units (pre rest : jsstring) :
  ~ In 37 pre -> unescape (pre ++ rest) = app (map Unit pre) <$> unescape rest.
Proof.
  induction pre as [|c pre IH]; intros Hno.
  - cbn [app map]. destruct (unescape rest); reflexivity.
  - cbn [app map unescape].
    destruct (N.eqb_spec c 37) as [->|_]; [exfalso; apply Hno; left; reflexivity|].
    rewrite IH by (intros H; apply Hno; right; exact H).
    destruct (unescape rest); reflexivity.
Qed.

Lemma decodeOctets_units (pre : jsstring) (ts : list Token) :
  decodeOctets (map Unit pre ++ ts) = app pre <$> decodeOctets ts.
Proof.
  induction pre as [|c pre IH]; cbn [app map decodeOctets].
  - destruct (decodeOctets ts); reflexivity.
  - rewrite IH. destruct (decodeOctets ts); reflexivity.
Qed.

(** A string without a percent sign decodes to itself. *)
Lemma decodeURIComponent_plain (s : jsstring) :
  ~ In 37 s -> decodeURIComponent s = Some s.
Proof.
  intros Hno. unfold decodeURIComponent.
  rewrite <- (app_nil_r s) at 1. rewrite unescape_units by exact Hno.
  cbn [unescape fmap option_fmap option_map mbind option_bind].
  rewrite decodeOctets_units. cbn [decodeOctets fmap option_fmap option_map].
  rewrite app_nil_r. reflexivity.
Qed.

(** The escape of an ASCII character decodes to the character. *)
Lemma decodeURIComponent_escaped (pre post : jsstring) (c : N) :
  ~ In 37 pre -> ~ In 37 post -> c < 128 ->
  decodeURIComponent (pre ++ percent c ++ post) = Some (pre ++ c :: post).
Proof.
  intros Hpre Hpost Hc. unfold decodeURIComponent.
  rewrite unescape_units by exact Hpre.
  rewrite unescape_percent by lia.
  rewrite <- (app_nil_r post) at 1. rewrite unescape_units by exact Hpost.
  cbn [unescape fmap option_fmap option_map mbind option_bind].
  rewrite decodeOctets_units, decodeOctets_1 by exact Hc.
  rewrite decodeOctets_units. cbn [decodeOctets fmap option_fmap option_map].
  rewrite !app_nil_r. reflexivity.
Qed.

(** A percent sign with fewer than two characters after it cannot be
    decoded. *)
Lemma unescape_dangling (n : nat) :
  forall s, (length s <= n)%nat -> unescape (s ++ [37]) = None.
Proof.
  induction n as [|n IH]; intros s Hn.
  { destruct s; [reflexivity | simpl in Hn; lia]. }
  destruct s as [|c s]; [reflexivity|].
  simpl in Hn. cbn [app unescape].
  destruct (c =? 37).
  - destruct s as [|h [|l s']].
    + reflexivity.
    + cbn [app]. destruct (hexValue h); reflexivity.
    + cbn [app]. simpl in Hn.
      destruct (hexValue h); [|reflexivity].
      destruct (hexValue l); [|reflexivity].
      rewrite IH by lia. reflexivity.
  - rewrite IH by lia. reflexivity.
Qed.

Lemma decodeURIComponent_dangling (s : jsstring) :
  decodeURIComponent (s ++ [37]) = None.
Proof.
  unfold decodeURIComponent. rewrite (unescape_dangling (length s)) by lia. reflexivity.
Qed.

Lemma GET_decoded
    (E : Engine) (getOperationStatus : jsstring -> Completion Json)
    (operationId decodedId : jsstring) :
  operationId <> [] -> decodeURIComponent operationId = Some decodedId ->
  OperationsRoute.GET E getOperationStatus (Normal operationId) =
  (match getOperationStatus decodedId with
   | Normal status =>
       {| OperationsRoute.status := 200;
          OperationsRoute.body := OperationsRoute.StatusBody status |}
   | Throw e => OperationsRoute.GET_catch e
   end, [decodedId]).
Proof.
  intros Hne Hdec. unfold OperationsRoute.GET.
  destruct operationId as [|c rest]; [congruence|]. cbn [is_empty].
  rewrite Hdec. cbn [orURIError].
  destruct (getOperationStatus decodedId); reflexivity.
Qed.

Lemma GET_undecodable
    (E : Engine) (getOperationStatus : jsstring -> Completion Json)
    (operationId : jsstring) :
  operationId <> [] -> decodeURIComponent operationId = None ->
  OperationsRoute.GET E getOperationStatus (Normal operationId) =
  (OperationsRoute.GET_catch (ErrorObject (URIError_message E)), []).
Proof.
  intros Hne Hdec. unfold OperationsRoute.GET.
  destruct operationId as [|c rest]; [congruence|]. cbn [is_empty].
  rewrite Hdec. reflexivity.
Qed.

(** C7.  [GET] with the empty handle answers 400 with the error
    "operationId is required" and looks nothing up.  With a handle that
    is not empty, what it looks up at the provider is the handle after
    URL decoding, once, and the answer is the provider's: 200 with the
    status, or 500 when the lookup threw.  The decoding is the one that
    undoes URL encoding: the encoding of any handle is looked up as the
    handle itself; a handle without a percent sign is looked up as it
    is; the escape [%XX] of an ASCII character is looked up as the
    character; and a handle that ends in a percent sign cannot be
    decoded: the answer is 500 with the engine's URIError message, and
    nothing is looked up. *)
Theorem status_route_decodes_the_handle
    (E : Engine) (getOperationStatus : jsstring -> Completion Json) :
  OperationsRoute.GET E getOperationStatus (Normal []) =
  ({| OperationsRoute.status := 400;
      OperationsRoute.body := OperationsRoute.ErrorBody (lit "operationId is required") |},
   []) /\
  (forall (c : N) (rest : jsstring),
     snd (OperationsRoute.GET E getOperationStatus (Normal (c :: rest))) =
     match decodeURIComponent (c :: rest) with
     | Some decodedId => [decodedId]
     | None => []
     end) /\
  (forall op enc : jsstring,
     wellFormed op -> op <> [] -> encodeURIComponent op = Some enc ->
     OperationsRoute.GET E getOperationStatus (Normal enc) =
     (match getOperationStatus op with
      | Normal status =>
          {| OperationsRoute.status := 200;
             OperationsRoute.body := OperationsRoute.StatusBody status |}
      | Throw e => OperationsRoute.GET_catch e
      end, [op])) /\
  (forall (c : N) (rest : jsstring),
     ~ In 37 (c :: rest) ->
     snd (OperationsRoute.GET E getOperationStatus (Normal (c :: rest))) = [c :: rest]) /\
  (forall (pre post : jsstring) (c : N),
     ~ In 37 pre -> ~ In 37 post -> c < 128 ->
     snd (OperationsRoute.GET E getOperationStatus (Normal (pre ++ percent c ++ post))) =
     [pre ++ c :: post]) /\
  (forall s : jsstring,
     OperationsRoute.GET E getOperationStatus (Normal (s ++ [37])) =
     (OperationsRoute.GET_catch (ErrorObject (URIError_message E)), [])).
Proof.
  split; [reflexivity|].
  split.
  { intros c rest. unfold OperationsRoute.GET. cbn [is_empty].
    destruct (decodeURIComponent (c :: rest)) as [d|]; cbn [orURIError].
    - destruct (getOperationStatus d); reflexivity.
    - reflexivity. }
  split.
  { intros op enc Hwf Hne Henc.
    destruct (encodeURIComponent_urlSafe (length op) op enc) as [_ Hnil]; auto.
    apply GET_decoded; [exact (Hnil Hne) | exact (decode_encode op enc Hwf Henc)]. }
  split.
  { intros c rest Hno.
    rewrite (GET_decoded E getOperationStatus (c :: rest) (c :: rest));
      [reflexivity | discriminate | exact (decodeURIComponent_plain _ Hno)]. }
  split.
  { intros pre post c Hpre Hpost Hc.
    rewrite (GET_decoded E getOperationStatus (pre ++ percent c ++ post) (pre ++ c :: post)).
    - reflexivity.
    - intros H. apply app_eq_nil in H as [_ H]. discriminate H.
    - exact (decodeURIComponent_escaped pre post c Hpre Hpost Hc). }
  intros s. apply GET_undecodable.
  - intros H. apply app_eq_nil in H as [_ H]. discriminate H.
  - apply decodeURIComponent_dangling.
Qed.

(** X5.  The handle the page writes into the status URL is the handle the
    route looks up: [poll] fetches [/api/operations/] followed by the
    encoded handle, and [GET], given that path segment, decodes it to the
    very handle and looks that up, once. *)
Theorem status_route_recovers_the_handle
    (E : Engine) (getOperationStatus : jsstring -> Completion Json)
    (w : World) (op enc : jsstring) :
  wellFormed op -> op <> [] -> encodeURIComponent op = Some enc ->
  calls (poll E op w) = GetStatus (lit "/api/operations/" ++ enc) :: calls w /\
  snd (OperationsRoute.GET E getOperationStatus (Normal enc)) = [op].
Proof.
  intros Hwf Hne Henc. split.
  - unfold poll. rewrite Henc. reflexivity.
  - pose proof (decode_encode op enc Hwf Henc) as Hdec.
    destruct (encodeURIComponent_urlSafe (length op) op enc) as [_ Hnil]; auto.
    specialize (Hnil Hne). unfold OperationsRoute.GET.
    destruct enc as [|c enc']; [congruence|]. cbn [is_empty].
    rewrite Hdec. cbn [orURIError].
    destruct (getOperationStatus op); reflexivity.
Qed.

(** X6.  The encoded handle is one path segment: it is made of
    unreserved characters and percent signs only, so it holds no slash,
    no question mark and no hash, and it is empty only for the empty
    handle. *)
Theorem encoded_handle_is_one_segment (op enc : jsstring) :
  wellFormed op -> encodeURIComponent op = Some enc ->
  Forall urlSafe enc /\
  ~ In 47 enc /\ ~ In 63 enc /\ ~ In 35 enc /\
  (op <> [] -> enc <> []).
Proof.
  intros Hwf Henc.
  destruct (encodeURIComponent_urlSafe (length op) op enc) as [Hs Hnil]; auto.
  assert (Hno : forall c, urlSafe c -> c <> 47 /\ c <> 63 /\ c <> 35).
  { intros c [Hc | ->]; [|repeat split; discriminate].
    repeat split; intros ->; vm_compute in Hc; discriminate. }
  pose proof Hs as Hall. rewrite Forall_forall in Hs.
  repeat split; try assumption.
  - intros H. apply list_elem_of_In in H. destruct (Hno 47 (Hs _ H)) as (? & _). congruence.
  - intros H. apply list_elem_of_In in H. destruct (Hno 63 (Hs _ H)) as (_ & ? & _). congruence.
  - intros H. apply list_elem_of_In in H. destruct (Hno 35 (Hs _ H)) as (_ & _ & ?). congruence.
Qed.

(* ===================================================================== *)
(** * The image slots *)
(* ===================================================================== *)

Lemma hyphen_kept : isWhiteSpace 45 = false.
Proof. reflexivity. Qed.

Lemma replaceRuns_noWhiteSpace (inRun : bool) (name : jsstring) :
  noWhiteSpace (replaceRuns inRun name).
Proof.
  revert inRun. induction name as [|c rest IH]; intros inRun; simpl; [constructor|].
  destruct (isWhiteSpace c) eqn:Hc.
  - destruct inRun; [apply IH|]. constructor; [exact hyphen_kept | apply IH].
  - constructor; [exact Hc | apply IH].
Qed.

Lemma replaceRuns_fixed (name : jsstring) :
  noWhiteSpace name -> forall inRun, replaceRuns inRun name = name.
Proof.
  induction 1 as [|c rest Hc _ IH]; intros inRun; simpl; [reflexivity|].
  rewrite Hc, IH. reflexivity.
Qed.

Lemma replaceRuns_length (inRun : bool) (name : jsstring) :
  (length (replaceRuns inRun name) <= length name)%nat.
Proof.
  revert inRun. induction name as [|c rest IH]; intros inRun; simpl; [lia|].
  pose proof (IH true). pose proof (IH false).
  destruct (isWhiteSpace c); [destruct inRun|]; simpl; lia.
Qed.

(** X7.  [sanitizeFilename] leaves no white space in a name and never
    makes it longer; a name without white space is kept as it is, so
    sanitizing twice is sanitizing once. *)
Theorem sanitizeFilename_leaves_no_white_space (name : jsstring) :
  noWhiteSpace (sanitizeFilename name) /\
  (length (sanitizeFilename name) <= length name)%nat /\
  (noWhiteSpace name -> sanitizeFilename name = name) /\
  sanitizeFilename (sanitizeFilename name) = sanitizeFilename name.
Proof.
  unfold sanitizeFilename. repeat split.
  - apply replaceRuns_noWhiteSpace.
  - apply replaceRuns_length.
  - intros H. apply replaceRuns_fixed, H.
  - apply replaceRuns_fixed, replaceRuns_noWhiteSpace.
Qed.

Example sanitizeFilename_example :
  sanitizeFilename (lit "my beach  photo.png") = lit "my-beach-photo.png".
Proof. vm_compute. reflexivity. Qed.

(** ** Updates of one slot *)

Lemma imap_keeps {B : Type} (g : nat -> ReferenceImageInput -> ReferenceImageInput)
    (view : ReferenceImageInput -> B) (prev : list ReferenceImageInput) :
  (forall i image, view (g i image) = view image) ->
  map view (imap g prev) = map view prev.
Proof.
  revert g. induction prev as [|image prev IH]; intros g Hg; [reflexivity|].
  rewrite imap_cons. simpl. rewrite Hg. f_equal. apply IH.
  intros i image'. apply Hg.
Qed.

Lemma updateSlot_keeps {B : Type} (index : nat)
    (f : ReferenceImageInput -> ReferenceImageInput)
    (view : ReferenceImageInput -> B) (prev : list ReferenceImageInput) :
  (forall image, view (f image) = view image) ->
  map view (updateSlot index f prev) = map view prev.
Proof.
  intros Hf. apply imap_keeps. intros i image. case_decide; [apply Hf | reflexivity].
Qed.

Lemma updateSlot_length index f prev : length (updateSlot index f prev) = length prev.
Proof. apply length_imap. Qed.

Lemma updateSlot_lookup index f prev j :
  updateSlot index f prev !! j =
  (if decide (j = index) then f else fun image => image) <$> prev !! j.
Proof.
  unfold updateSlot. rewrite list_lookup_imap.
  destruct (decide (j = index)); destruct (prev !! j); reflexivity.
Qed.

Lemma updateSlot_twice index f g prev :
  updateSlot index g (updateSlot index f prev) =
  updateSlot index (fun image => g (f image)) prev.
Proof.
  apply list_eq. intros j. rewrite !updateSlot_lookup.
  destruct (decide (j = index)); destruct (prev !! j); reflexivity.
Qed.

Lemma updateSlot_ext index f g prev :
  (forall image, f image = g image) -> updateSlot index f prev = updateSlot index g prev.
Proof.
  intros H. apply list_eq. intros j. rewrite !updateSlot_lookup.
  destruct (decide (j = index)); destruct (prev !! j); simpl; rewrite ?H; reflexivity.
Qed.

(** Whatever [handleImageChange] does, it rewrites the one slot, and
    keeps the slot's [id]. *)
Lemma handleImageChange_updateSlot index fileList read prev :
  exists f,
    (forall image, id (f image) = id image) /\
    handleImageChange index fileList read prev = updateSlot index f prev.
Proof.
  unfold handleImageChange.
  destruct fileList as [[|file others]|];
    [| destruct (negb (startsWith (file_type file) (lit "image/")));
       [| destruct read] |];
    (eexists; split; [| reflexivity]; intros image; reflexivity).
Qed.

(** X8.  [handleImageChange] and [resetImage] keep the number of slots
    and their ids, and touch no slot but the one they are called for. *)
Theorem image_handlers_keep_the_other_slots
    (index : nat) (fileList : option (list File)) (read : Completion jsstring)
    (prev : list ReferenceImageInput) :
  (length (handleImageChange index fileList read prev) = length prev /\
   map id (handleImageChange index fileList read prev) = map id prev /\
   forall j, j <> index ->
     handleImageChange index fileList read prev !! j = prev !! j) /\
  (length (resetImage index prev) = length prev /\
   map id (resetImage index prev) = map id prev /\
   forall j, j <> index -> resetImage index prev !! j = prev !! j).
Proof.
  destruct (handleImageChange_updateSlot index fileList read prev) as (f & Hf & ->).
  unfold resetImage. repeat split.
  - apply updateSlot_length.
  - apply updateSlot_keeps. exact Hf.
  - intros j Hj. rewrite updateSlot_lookup. case_decide; [congruence|].
    destruct (prev !! j); reflexivity.
  - apply updateSlot_length.
  - apply updateSlot_keeps. reflexivity.
  - intros j Hj. rewrite updateSlot_lookup. case_decide; [congruence|].
    destruct (prev !! j); reflexivity.
Qed.

Lemma referenceImagesOf_imap
    (g : nat -> ReferenceImageInput -> ReferenceImageInput)
    (prev : list ReferenceImageInput) :
  (forall i image, name (g i image) = name image /\ dataUrl (g i image) = dataUrl image) ->
  referenceImagesOf (imap g prev) = referenceImagesOf prev.
Proof.
  revert g. induction prev as [|image prev IH]; intros g Hg; [reflexivity|].
  rewrite imap_cons. unfold referenceImagesOf in *.
  destruct (Hg 0%nat image) as [Hn Hd].
  assert (Hh : hasDataUrl (g 0%nat image) = hasDataUrl image)
    by (unfold hasDataUrl; rewrite Hd; reflexivity).
  rewrite !filter_cons, Hh. specialize (IH (g ∘ S) (fun i image' => Hg (S i) image')).
  case_decide; simpl; rewrite ?Hn, ?Hd, IH; reflexivity.
Qed.

Lemma hasImages_referenceImagesOf (images : list ReferenceImageInput) :
  hasImages images = negb (Nat.eqb (length (referenceImagesOf images)) 0).
Proof.
  unfold hasImages, referenceImagesOf.
  induction images as [|image images IH]; [reflexivity|].
  cbn [existsb]. rewrite filter_cons.
  destruct (decide (hasDataUrl image = true)) as [Hh|Hh].
  - rewrite Hh. reflexivity.
  - destruct (hasDataUrl image); [congruence|]. exact IH.
Qed.

(** X9.  A chosen file that is not an image, or that cannot be read,
    only sets the slot's error: the image chosen before stays in the
    slot, and what a submission would send is unchanged. *)
Theorem refused_file_keeps_the_image
    (index : nat) (file : File) (others : list File) (read : Completion jsstring)
    (prev : list ReferenceImageInput) :
  startsWith (file_type file) (lit "image/") = false \/ (exists e, read = Throw e) ->
  referenceImagesOf (handleImageChange index (Some (file :: others)) read prev) =
    referenceImagesOf prev /\
  hasImages (handleImageChange index (Some (file :: others)) read prev) = hasImages prev /\
  forall image,
    prev !! index = Some image ->
    exists text,
      handleImageChange index (Some (file :: others)) read prev !! index =
      Some {| id := id image; name := name image; dataUrl := dataUrl image;
              error := Some text |}.
Proof.
  intros H.
  assert (Hf : exists text,
    handleImageChange index (Some (file :: others)) read prev =
    updateSlot index
      (fun image => {| id := id image; name := name image; dataUrl := dataUrl image;
                       error := Some text |}) prev).
  { unfold handleImageChange.
    destruct (startsWith (file_type file) (lit "image/")); simpl; [|eauto].
    destruct H as [H | [e ->]]; [discriminate | eauto]. }
  destruct Hf as (text & ->).
  assert (Hr : referenceImagesOf
                 (updateSlot index
                    (fun image => {| id := id image; name := name image;
                                     dataUrl := dataUrl image; error := Some text |}) prev) =
               referenceImagesOf prev).
  { apply referenceImagesOf_imap. intros i image. case_decide; auto. }
  repeat split.
  - exact Hr.
  - rewrite !hasImages_referenceImagesOf, Hr. reflexivity.
  - intros image Hi. exists text. rewrite updateSlot_lookup, Hi. simpl.
    case_decide; [reflexivity | congruence].
Qed.

(** X10.  [resetImage] undoes whatever [handleImageChange] did to the
    slot, and a second [resetImage] changes nothing; the slot it leaves
    has no image and no error. *)
Theorem resetImage_undoes_any_choice
    (index : nat) (fileList : option (list File)) (read : Completion jsstring)
    (prev : list ReferenceImageInput) :
  resetImage index (handleImageChange index fileList read prev) = resetImage index prev /\
  resetImage index (resetImage index prev) = resetImage index prev /\
  forall image,
    resetImage index prev !! index = Some image ->
    dataUrl image = None /\ error image = None /\
    name image = lit "reference-image-" ++ showNat (index + 1).
Proof.
  destruct (handleImageChange_updateSlot index fileList read prev) as (f & Hf & ->).
  unfold resetImage. repeat split.
  - rewrite updateSlot_twice. apply updateSlot_ext. intros image. simpl.
    rewrite Hf. reflexivity.
  - rewrite updateSlot_twice. apply updateSlot_ext. reflexivity.
  - rewrite updateSlot_lookup in H. destruct (prev !! index); [|discriminate].
    simpl in H. case_decide; [|congruence]. injection H as <-. reflexivity.
  - rewrite updateSlot_lookup in H. destruct (prev !! index); [|discriminate].
    simpl in H. case_decide; [|congruence]. injection H as <-. reflexivity.
  - rewrite updateSlot_lookup in H. destruct (prev !! index); [|discriminate].
    simpl in H. case_decide; [|congruence]. injection H as <-. reflexivity.
Qed.

(* ===================================================================== *)
(** * More about the lifecycle *)
(* ===================================================================== *)

Section LifecycleFacts.

Variable E : Engine.

Ltac handlers :=
  unfold submit, commit, effect, handleSubmit_resume, handleSubmit,
    handleSubmit_finally, handleSubmit_catch, poll_resume, poll, poll_catch,
    clearPollTimer, setInterval, orURIError;
  cbv beta iota zeta;
  repeat (match goal with
          | |- context [match ?x with _ => _ end] => destruct x eqn:?
          end; cbv beta iota zeta);
  try reflexivity; try (simpl in *; congruence).

(** No handler but the two form handlers touches [prompt] or [images]. *)
Lemma poll_form op w :
  prompt (state (poll E op w)) = prompt (state w) /\
  images (state (poll E op w)) = images (state w).
Proof. split; handlers. Qed.

Lemma poll_resume_form reply w :
  prompt (state (poll_resume E reply w)) = prompt (state w) /\
  images (state (poll_resume E reply w)) = images (state w).
Proof. split; handlers. Qed.

Lemma effect_form w :
  prompt (state (effect E w)) = prompt (state w) /\
  images (state (effect E w)) = images (state w).
Proof. split; handlers. Qed.

Lemma commit_form committed w :
  prompt (state (commit E committed w)) = prompt (state w) /\
  images (state (commit E committed w)) = images (state w).
Proof. unfold commit. case_decide; [auto | apply effect_form]. Qed.

Lemma handleSubmit_form w :
  prompt (state (handleSubmit w)) = prompt (state w) /\
  images (state (handleSubmit w)) = images (state w).
Proof. split; handlers. Qed.

Lemma handleSubmit_resume_form reply w :
  prompt (state (handleSubmit_resume E reply w)) = prompt (state w) /\
  images (state (handleSubmit_resume E reply w)) = images (state w).
Proof. split; handlers. Qed.

Lemma step_images w ev w' :
  step E w ev = Some w' ->
  (forall value, ev <> ChangeImages value) ->
  images (state w') = images (state w).
Proof.
  intros Hstep Hev. destruct ev as [v | v | | r reply | h | r reply].
  - injection Hstep as <-. reflexivity.
  - destruct (Hev v). reflexivity.
  - apply step_Submit in Hstep as [_ ->]. unfold submit.
    destruct (commit_form (operationId (state w)) (handleSubmit w)) as [_ ->].
    apply handleSubmit_form.
  - apply step_SubmitSettled in Hstep as [_ ->].
    destruct (commit_form (operationId (state w))
                (handleSubmit_resume E reply (settleSubmit r w))) as [_ ->].
    apply (handleSubmit_resume_form reply (settleSubmit r w)).
  - apply step_IntervalElapsed in Hstep as (op & _ & ->). apply poll_form.
  - apply step_StatusSettled in Hstep as [_ ->].
    apply (poll_resume_form reply (settleStatus r w)).
Qed.

(** ** The calls a handler adds *)

Lemma poll_calls op w :
  calls (poll E op w) = calls w \/
  exists url, calls (poll E op w) = GetStatus url :: calls w.
Proof.
  unfold poll. destruct (orURIError E (encodeURIComponent op)).
  - right. eexists. reflexivity.
  - left. apply poll_catch_calls.
Qed.

Lemma effect_calls w :
  calls (effect E w) = calls w \/
  exists url, calls (effect E w) = GetStatus url :: calls w.
Proof.
  unfold effect. destruct (operationId (state w)) as [op|];
    [destruct (is_empty op)|]; try (left; apply clearPollTimer_calls).
  exact (poll_calls op (setPolling true w)).
Qed.

Lemma commit_calls committed w :
  calls (commit E committed w) = calls w \/
  exists url, calls (commit E committed w) = GetStatus url :: calls w.
Proof. unfold commit. case_decide; [left; reflexivity | apply effect_calls]. Qed.

Lemma posts_GetStatus url cs : posts (GetStatus url :: cs) = posts cs.
Proof. reflexivity. Qed.

Lemma posts_Post body cs : posts (PostGenerateVideo body :: cs) = body :: posts cs.
Proof. reflexivity. Qed.

(** Only a form submission posts. *)
Lemma step_posts w ev w' :
  step E w ev = Some w' ->
  ev <> Submit ->
  posts (calls w') = posts (calls w).
Proof.
  intros Hstep Hev. destruct ev as [v | v | | r reply | h | r reply].
  - injection Hstep as <-. reflexivity.
  - injection Hstep as <-. reflexivity.
  - congruence.
  - apply step_SubmitSettled in Hstep as [_ ->].
    destruct (commit_calls (operationId (state w))
                (handleSubmit_resume E reply (settleSubmit r w))) as [-> | [url ->]];
      rewrite ?posts_GetStatus, handleSubmit_resume_calls; reflexivity.
  - apply step_IntervalElapsed in Hstep as (op & _ & ->).
    destruct (poll_calls op w) as [-> | [url ->]]; reflexivity.
  - apply step_StatusSettled in Hstep as [_ ->].
    rewrite poll_resume_calls. reflexivity.
Qed.

Lemma step_Submit_posts w w' :
  step E w Submit = Some w' ->
  posts (calls w') = posts (calls w) \/
  exists body, posts (calls w') = body :: posts (calls w).
Proof.
  intros Hstep. apply step_Submit in Hstep as [_ ->].
  destruct (submit_started E w) as [m _ _ _ _ -> | body _ _ _ _ ->];
    [left | right; exists body]; reflexivity.
Qed.

(** X18.  The page posts once per form submission at most, whatever the
    replies: over any run, the POSTs issued are no more than the form
    submissions in it.  A failed submission or a failed poll is never
    sent again by the page itself. *)
Theorem one_post_per_submission (evs : list Event) :
  forall w w',
    run E w evs = Some w' ->
    (length (posts (calls w')) <=
     length (posts (calls w)) + length (List.filter isSubmit evs))%nat.
Proof.
  induction evs as [|ev evs IH]; intros w w' Hrun; simpl in Hrun.
  - injection Hrun as <-. simpl. lia.
  - destruct (step E w ev) as [w1|] eqn:Hstep; [|discriminate].
    specialize (IH w1 w' Hrun).
    destruct ev as [v | v | | r reply | h | r reply];
      try (rewrite (step_posts w _ w1 Hstep) in IH by discriminate; simpl; lia).
    destruct (step_Submit_posts w w1 Hstep) as [H | [body H]];
      rewrite H in IH; simpl in *; lia.
Qed.

(** ** The submit button *)

Lemma handleSubmit_operationStatus w : operationStatus (state (handleSubmit w)) = JNull.
Proof. handlers. Qed.

Lemma submit_operationStatus w : operationStatus (state (submit E w)) = JNull.
Proof.
  rewrite submit_unfold. destruct (operationId (state w));
    rewrite ?clearPollTimer_state; apply handleSubmit_operationStatus.
Qed.

Lemma submitDisabled_false (s : State) :
  submitDisabled s = false <->
  submitting s = false /\ is_empty (trim (prompt s)) = false /\
  Nat.eqb (length (referenceImagesOf (images s))) 0 = false.
Proof.
  unfold submitDisabled. rewrite hasImages_referenceImagesOf, negb_involutive.
  rewrite !orb_false_iff. tauto.
Qed.

(** X12.  The submit button is disabled exactly when [handleSubmit]
    would not send: with the button enabled, a submission issues the one
    POST, of the prompt as typed and the images that have a data URL, and
    sets no error; with the button disabled for the prompt or the images,
    [handleSubmit] issues nothing and reports the error. *)
Theorem submit_button_matches_validation (w : World) :
  submitting (state w) = false ->
  if submitDisabled (state w)
  then calls (submit E w) = calls w /\
       submitFetches (submit E w) = submitFetches w /\
       submitting (state (submit E w)) = false /\
       exists message, errorMessage (state (submit E w)) = Some message
  else calls (submit E w) =
         PostGenerateVideo
           {| body_prompt := prompt (state w);
              body_referenceImages := referenceImagesOf (images (state w)) |}
         :: calls w /\
       submitFetches (submit E w) =
         <[nextRequest w :=
             {| body_prompt := prompt (state w);
                body_referenceImages := referenceImagesOf (images (state w)) |}]>
           (submitFetches w) /\
       submitting (state (submit E w)) = true /\
       errorMessage (state (submit E w)) = None.
Proof.
  intros Hsub. destruct (submitDisabled (state w)) eqn:Hd.
  - assert (Hv : is_empty (trim (prompt (state w))) = true \/
                 Nat.eqb (length (referenceImagesOf (images (state w)))) 0 = true).
    { destruct (is_empty (trim (prompt (state w)))) eqn:H1; [auto|].
      destruct (Nat.eqb (length (referenceImagesOf (images (state w)))) 0) eqn:H2; [auto|].
      assert (submitDisabled (state w) = false) by (apply submitDisabled_false; auto).
      congruence. }
    rewrite submit_unfold.
    assert (H : calls (handleSubmit w) = calls w /\
                submitFetches (handleSubmit w) = submitFetches w /\
                submitting (state (handleSubmit w)) = false /\
                exists message, errorMessage (state (handleSubmit w)) = Some message).
    { unfold handleSubmit. cbn [state prompt images setSubmitting setErrorMessage
        setStubMessage setOperationId setOperationStatus withState].
      destruct (is_empty (trim (prompt (state w)))).
      - repeat split. eexists. reflexivity.
      - destruct Hv as [Hv | Hv]; [discriminate|]. rewrite Hv.
        repeat split. eexists. reflexivity. }
    destruct (operationId (state w));
      rewrite ?clearPollTimer_state, ?clearPollTimer_calls,
        ?clearPollTimer_submitFetches; exact H.
  - apply submitDisabled_false in Hd as (_ & H1 & H2).
    rewrite submit_unfold.
    assert (H : handleSubmit w =
                fetchSubmit
                  {| body_prompt := prompt (state w);
                     body_referenceImages := referenceImagesOf (images (state w)) |}
                  (setOperationStatus JNull
                     (setOperationId None
                        (setStubMessage None
                           (setErrorMessage None (setSubmitting true w)))))).
    { unfold handleSubmit. cbn [state prompt images setSubmitting setErrorMessage
        setStubMessage setOperationId setOperationStatus withState].
      rewrite H1, H2. reflexivity. }
    rewrite H.
    destruct (operationId (state w));
      rewrite ?clearPollTimer_state, ?clearPollTimer_calls,
        ?clearPollTimer_submitFetches; repeat split.
Qed.

(** ** A submission from start to reply *)

(** X14.  Starting a submission ends the operation before it: the
    stored handle, status and stub message are cleared, the timer is
    stopped and no interval stays active, and no status fetch is issued.
    The [polling] flag is not written and stays as it was. *)
Theorem submission_clears_the_previous_operation (w w' : World) :
  reachable E w ->
  step E w Submit = Some w' ->
  operationId (state w') = None /\
  operationStatus (state w') = JNull /\
  stubMessage (state w') = None /\
  pollTimerRef w' = None /\
  intervals w' = ∅ /\
  polling (state w') = polling (state w) /\
  filter isStatusCall (calls w') = filter isStatusCall (calls w).
Proof.
  intros Hw Hstep. pose proof (reachable_Inv E w Hw) as HI.
  apply step_Submit in Hstep as [_ ->].
  destruct (submit_timer E w (inv_timer _ HI)) as [Href Hiv].
  repeat split; try assumption.
  - apply submit_operationId.
  - apply submit_operationStatus.
  - apply submit_stubMessage.
  - apply submit_polling.
  - destruct (submit_started E w) as [m _ _ _ _ -> | body _ _ _ _ ->]; reflexivity.
Qed.

(** What the effect keeps. *)
Lemma effect_results w :
  stubMessage (state (effect E w)) = stubMessage (state w) /\
  operationId (state (effect E w)) = operationId (state w) /\
  submitting (state (effect E w)) = submitting (state w) /\
  operationStatus (state (effect E w)) = operationStatus (state w).
Proof. repeat split; handlers. Qed.

Lemma commit_results committed w :
  stubMessage (state (commit E committed w)) = stubMessage (state w) /\
  operationId (state (commit E committed w)) = operationId (state w) /\
  submitting (state (commit E committed w)) = submitting (state w) /\
  operationStatus (state (commit E committed w)) = operationStatus (state w).
Proof. unfold commit. case_decide; [auto | apply effect_results]. Qed.

Lemma Results_mounted : Results mounted.
Proof. split; [discriminate | left; reflexivity]. Qed.

Lemma step_Results w ev w' :
  Inv w -> Results w -> step E w ev = Some w' -> Results w'.
Proof.
  intros HI [Hs Hx] Hstep.
  destruct ev as [v | v | | r reply | h | r reply].
  - injection Hstep as <-. split; assumption.
  - injection Hstep as <-. split; assumption.
  - apply step_Submit in Hstep as [_ ->]. split.
    + intros _. apply submit_stubMessage.
    + left. apply submit_stubMessage.
  - apply step_SubmitSettled in Hstep as [[body Hr] ->].
    destruct (submission_pending w r body HI Hr) as (Hsub & Hop & _).
    specialize (Hs Hsub).
    destruct (commit_results (operationId (state w))
                (handleSubmit_resume E reply (settleSubmit r w)))
      as (C1 & C2 & C3 & _).
    split.
    + rewrite C3, handleSubmit_resume_submitting. discriminate.
    + rewrite C1, C2, handleSubmit_resume_operationId.
      destruct reply as [e | status detail | [[message | op raw] | e]]; simpl;
        auto.
  - apply step_IntervalElapsed in Hstep as (op & _ & ->).
    split; rewrite ?poll_submitting, ?poll_stubMessage, ?poll_operationId; assumption.
  - apply step_StatusSettled in Hstep as [_ ->].
    split; rewrite ?poll_resume_submitting, ?poll_resume_stubMessage,
             ?poll_resume_operationId; assumption.
Qed.

Lemma run_Results evs : forall w w',
  Inv w -> Results w -> run E w evs = Some w' -> Results w'.
Proof.
  induction evs as [|ev evs IH]; simpl; intros w w' HI HR Hrun.
  - injection Hrun as <-. exact HR.
  - destruct (step E w ev) as [w1|] eqn:Hstep; [|discriminate].
    apply (IH w1 w'); [eapply step_Inv | eapply step_Results | ]; eassumption.
Qed.

Lemma reachable_Results (w : World) : reachable E w -> Results w.
Proof.
  intros [evs Hrun].
  exact (run_Results evs mounted w Inv_mounted Results_mounted Hrun).
Qed.

(** X16.  The page never holds a stub message and an operation handle
    together, and holds neither while a submission is under way: a
    result shown belongs to the last submission. *)
Theorem stub_and_operation_exclude_each_other (w : World) :
  reachable E w ->
  (stubMessage (state w) = None \/ operationId (state w) = None) /\
  (submitting (state w) = true ->
   stubMessage (state w) = None /\ operationId (state w) = None).
Proof.
  intros Hw. pose proof (reachable_Inv E w Hw) as HI.
  destruct (reachable_Results w Hw) as [Hs Hx].
  split; [exact Hx|]. intros Hsub. split; [exact (Hs Hsub)|].
  pose proof (inv_submission _ HI) as Ho. unfold submissionOpen in Ho.
  rewrite Hsub in Ho. apply Ho.
Qed.

(** X15.  A submission that fails (the fetch rejects, the response is
    not [ok], or its body is not JSON) is reported and goes no further:
    [errorMessage] is set and [submitting] cleared, no handle and no stub
    message is stored, no timer is started and no fetch issued. *)
Theorem failed_submission_is_reported
    (w w' : World) (r : nat) (reply : SubmitReply) :
  reachable E w ->
  (forall result, reply <> SubmitOk (Normal result)) ->
  step E w (SubmitSettled r reply) = Some w' ->
  (exists message, errorMessage (state w') = Some message) /\
  submitting (state w') = false /\
  operationId (state w') = None /\
  stubMessage (state w') = None /\
  pollTimerRef w' = None /\
  intervals w' = ∅ /\
  calls w' = calls w.
Proof.
  intros Hw Hfail Hstep. pose proof (reachable_Inv E w Hw) as HI.
  destruct (reachable_Results w Hw) as [Hsub _].
  apply step_SubmitSettled in Hstep as [[body Hr] ->].
  destruct (submission_pending w r body HI Hr) as (Hs & Hop & Href & Hiv & _).
  pose proof (Hsub Hs) as Hstub.
  assert (Hno : operationId (state (handleSubmit_resume E reply (settleSubmit r w))) = None).
  { rewrite handleSubmit_resume_operationId.
    destruct reply as [e | status detail | [[message | op raw] | e]]; try exact Hop.
    exfalso. eapply Hfail. reflexivity. }
  unfold commit. rewrite Hno, Hop. case_decide; [|congruence].
  rewrite handleSubmit_resume_ref, handleSubmit_resume_intervals,
    handleSubmit_resume_calls, handleSubmit_resume_submitting.
  repeat split; try assumption.
  - destruct reply as [e | status detail | [[message | op raw] | e]];
      try (eexists; reflexivity); exfalso; eapply Hfail; reflexivity.
  - destruct reply as [e | status detail | [[message | op raw] | e]];
      try exact Hstub; exfalso; eapply Hfail; reflexivity.
Qed.

(** What the commit does once a handle has arrived. *)
Lemma success_commit (w : World) (r : nat) (body : SubmitBody)
    (op : jsstring) (raw : Json) :
  Inv w -> submitFetches w !! r = Some body -> is_empty op = false ->
  commit E (operationId (state w))
    (handleSubmit_resume E (SubmitOk (Normal (GenerateVideoSuccess op raw)))
       (settleSubmit r w)) =
  let w0 := handleSubmit_resume E (SubmitOk (Normal (GenerateVideoSuccess op raw)))
              (settleSubmit r w) in
  setPollTimerRef (Some (nextHandle (poll E op (setPolling true w0))))
    (snd (setInterval op (poll E op (setPolling true w0)))).
Proof.
  intros HI Hr Hne.
  destruct (submission_pending w r body HI Hr) as (_ & Hop & _).
  unfold commit. rewrite Hop. case_decide as Hd; [discriminate Hd|].
  apply effect_starts; [reflexivity | exact Hne].
Qed.

(** X13.  A reply that carries a handle starts polling at once: the
    handle and the raw status are stored, [polling] is set, the first
    status fetch is issued straight away, not after the first interval,
    and exactly one interval is started, which [pollTimerRef] names. *)
Theorem success_reply_starts_polling
    (w w' : World) (r : nat) (op enc : jsstring) (raw : Json) :
  reachable E w ->
  op <> [] ->
  encodeURIComponent op = Some enc ->
  step E w (SubmitSettled r (SubmitOk (Normal (GenerateVideoSuccess op raw)))) = Some w' ->
  operationId (state w') = Some op /\
  operationStatus (state w') = raw /\
  submitting (state w') = false /\
  polling (state w') = true /\
  calls w' = GetStatus (lit "/api/operations/" ++ enc) :: calls w /\
  statusFetches w' = <[nextRequest w := lit "/api/operations/" ++ enc]> (statusFetches w) /\
  pollTimerRef w' = Some (nextHandle w) /\
  intervals w' = {[nextHandle w := op]}.
Proof.
  intros Hw Hne Henc Hstep. pose proof (reachable_Inv E w Hw) as HI.
  apply step_SubmitSettled in Hstep as [[body Hr] ->].
  destruct (submission_pending w r body HI Hr) as (_ & _ & _ & Hiv & _).
  rewrite (success_commit w r body op raw HI Hr) by (apply is_empty_false; exact Hne).
  unfold poll. rewrite Henc. cbn.
  repeat split. rewrite Hiv. apply insert_empty.
Qed.

(** X17.  A handle that cannot be URL-encoded (it holds an unpaired
    surrogate): the first [poll] fails before the timer exists, so the
    error is shown and [polling] cleared, no fetch is ever issued, and yet
    the interval is started; it stops itself the first time it elapses. *)
Theorem unencodable_handle_polls_nothing
    (w w' : World) (r : nat) (op : jsstring) (raw : Json) :
  reachable E w ->
  encodeURIComponent op = None ->
  step E w (SubmitSettled r (SubmitOk (Normal (GenerateVideoSuccess op raw)))) = Some w' ->
  polling (state w') = false /\
  errorMessage (state w') = Some (URIError_message E) /\
  calls w' = calls w /\
  pollTimerRef w' = Some (nextHandle w) /\
  intervals w' = {[nextHandle w := op]} /\
  exists w'',
    step E w' (IntervalElapsed (nextHandle w)) = Some w'' /\
    pollTimerRef w'' = None /\
    intervals w'' = ∅ /\
    calls w'' = calls w.
Proof.
  intros Hw Henc Hstep. pose proof (reachable_Inv E w Hw) as HI.
  assert (Hne : is_empty op = false).
  { destruct op; [discriminate Henc | reflexivity]. }
  apply step_SubmitSettled in Hstep as [[body Hr] ->].
  destruct (submission_pending w r body HI Hr) as (_ & _ & Href & Hiv & _).
  rewrite (success_commit w r body op raw HI Hr) by exact Hne.
  unfold poll. rewrite Henc. cbn [orURIError].
  unfold poll_catch, clearPollTimer. cbn. rewrite Href. cbn. rewrite Hiv.
  do 4 (split; [reflexivity|]). split; [apply insert_empty|].
  unfold step. rewrite insert_empty, lookup_singleton_eq.
  eexists. split; [reflexivity|].
  unfold poll. rewrite Henc. cbn [orURIError].
  unfold poll_catch, clearPollTimer. cbn.
  repeat split. apply delete_singleton_eq.
Qed.

(** X19.  Without a stored handle the page does not poll: no timer is
    held, no interval is active, and nothing that happens, short of a
    submission being answered, issues a status fetch. *)
Theorem no_handle_no_polling (w : World) :
  reachable E w ->
  operationId (state w) = None ->
  pollTimerRef w = None /\
  intervals w = ∅ /\
  forall ev w',
    step E w ev = Some w' ->
    (forall r reply, ev <> SubmitSettled r reply) ->
    filter isStatusCall (calls w') = filter isStatusCall (calls w).
Proof.
  intros Hw Hop. pose proof (reachable_Inv E w Hw) as HI.
  assert (Href : pollTimerRef w = None).
  { pose proof (inv_timer _ HI) as Ht. unfold timerOwned in Ht.
    destruct (pollTimerRef w); [|reflexivity].
    destruct Ht as (op & _ & Ht). congruence. }
  assert (Hiv : intervals w = ∅).
  { pose proof (inv_timer _ HI) as Ht. unfold timerOwned in Ht.
    rewrite Href in Ht. exact Ht. }
  repeat split; try assumption.
  intros ev w' Hstep Hev.
  destruct ev as [v | v | | r reply | h | r reply].
  - injection Hstep as <-. reflexivity.
  - injection Hstep as <-. reflexivity.
  - apply step_Submit in Hstep as [_ ->].
    destruct (submit_started E w) as [m _ _ _ _ -> | body _ _ _ _ ->]; reflexivity.
  - destruct (Hev r reply). reflexivity.
  - apply step_IntervalElapsed in Hstep as (op & Hh & _).
    rewrite Hiv, lookup_empty in Hh. discriminate.
  - apply step_StatusSettled in Hstep as [_ ->].
    rewrite poll_resume_calls. reflexivity.
Qed.

(** X20.  Tearing the component down leaves no interval behind: the
    cleanup of the mount effect stops the one timer there can be, and
    touches nothing else. *)
Theorem unmount_leaves_no_timer (w : World) :
  reachable E w ->
  intervals (unmount w) = ∅ /\
  state (unmount w) = state w /\
  calls (unmount w) = calls w.
Proof.
  intros Hw. pose proof (inv_timer _ (reachable_Inv E w Hw)) as Ht.
  unfold timerOwned in Ht. unfold unmount.
  destruct (pollTimerRef w) as [h|]; [|auto].
  destruct Ht as (op & Hiv & _). cbn. rewrite Hiv.
  repeat split. apply delete_singleton_eq.
Qed.

End LifecycleFacts.

(* ===================================================================== *)
(** * The page as its user drives it *)
(* ===================================================================== *)

Lemma lit_String (c : ascii) (s : string) : lit (String c s) = N_of_ascii c :: lit s.
Proof. reflexivity. Qed.

Lemma digits_noWhiteSpace (d : Decimal.uint) :
  noWhiteSpace (lit (NilEmpty.string_of_uint d)).
Proof.
  induction d; cbn [NilEmpty.string_of_uint]; rewrite ?lit_String;
    try (constructor; [reflexivity | assumption]).
  constructor.
Qed.

Lemma showNat_noWhiteSpace (n : nat) : noWhiteSpace (showNat n).
Proof. apply digits_noWhiteSpace. Qed.

Lemma slot_name_noWhiteSpace (index : nat) :
  noWhiteSpace (lit "reference-image-" ++ showNat (index + 1)).
Proof.
  apply Forall_app. split; [|apply showNat_noWhiteSpace].
  apply Forall_forall. intros c Hc. vm_compute in Hc.
  repeat (apply elem_of_cons in Hc as [-> | Hc]; [reflexivity|]).
  apply elem_of_nil in Hc. destruct Hc.
Qed.

Lemma map_lookup {A B : Type} (f : A -> B) (l : list A) (i : nat) :
  map f l !! i = f <$> l !! i.
Proof. exact (list_lookup_fmap f l i). Qed.

Lemma updateSlot_Forall (P : ReferenceImageInput -> Prop) index f prev :
  (forall image, P image -> P (f image)) ->
  Forall P prev -> Forall P (updateSlot index f prev).
Proof.
  intros Hf Hp. apply Forall_lookup. intros j image Hj.
  rewrite updateSlot_lookup in Hj. rewrite Forall_lookup in Hp.
  destruct (prev !! j) as [image0|] eqn:H0; [|discriminate].
  simpl in Hj. injection Hj as <-. specialize (Hp j image0 H0).
  case_decide; [apply Hf, Hp | exact Hp].
Qed.

Lemma handleImageChange_names index fileList read prev :
  Forall (fun image => noWhiteSpace (name image)) prev ->
  Forall (fun image => noWhiteSpace (name image))
    (handleImageChange index fileList read prev).
Proof.
  intros Hp. unfold handleImageChange.
  destruct fileList as [[|file others]|];
    [| destruct (negb (startsWith (file_type file) (lit "image/")));
       [| destruct read] |];
    (apply updateSlot_Forall; [intros image Hi; simpl | exact Hp]);
    try exact Hi.
  apply replaceRuns_noWhiteSpace.
Qed.

Lemma resetImage_names index prev :
  Forall (fun image => noWhiteSpace (name image)) prev ->
  Forall (fun image => noWhiteSpace (name image)) (resetImage index prev).
Proof.
  intros Hp. apply updateSlot_Forall; [|exact Hp].
  intros image _. apply slot_name_noWhiteSpace.
Qed.

Lemma referenceImagesOf_length images :
  (length (referenceImagesOf images) <= length images)%nat.
Proof. unfold referenceImagesOf. rewrite length_map. apply length_filter. Qed.

Lemma referenceImagesOf_names images :
  Forall (fun image => noWhiteSpace (name image)) images ->
  Forall (fun image => noWhiteSpace (ref_name image)) (referenceImagesOf images).
Proof.
  intros H. unfold referenceImagesOf. apply Forall_map.
  apply Forall_forall. intros image Hi. apply list_elem_of_filter in Hi as [_ Hi].
  rewrite Forall_forall in H. exact (H image Hi).
Qed.

Lemma referenceImagesOf_urls images :
  Forall (fun image => ref_dataUrl image <> []) (referenceImagesOf images).
Proof.
  unfold referenceImagesOf. apply Forall_map.
  apply Forall_forall. intros image Hi. apply list_elem_of_filter in Hi as [Hh _].
  unfold hasDataUrl in Hh. simpl. destruct (dataUrl image) as [url|]; [|discriminate].
  simpl. destruct url; [discriminate | discriminate].
Qed.

Section Driven.

Variable E : Engine.

Lemma act_step w g w' :
  act E w g = Some w' -> exists ev, eventOf w g = Some ev /\ step E w ev = Some w'.
Proof. unfold act. destruct (eventOf w g) as [ev|]; [eauto | discriminate]. Qed.

Lemma usable_reachable w : usable E w -> reachable E w.
Proof.
  intros [gs Hs]. revert Hs.
  assert (H : forall w0, reachable E w0 -> session E w0 gs = Some w -> reachable E w).
  { induction gs as [|g gs IH]; simpl; intros w0 H0 Hs.
    - injection Hs as <-. exact H0.
    - destruct (act E w0 g) as [w1|] eqn:Ha; [|discriminate].
      apply act_step in Ha as (ev & _ & Hstep).
      apply (IH w1); [|exact Hs]. eapply reachable_step; eassumption. }
  apply H. exists []. reflexivity.
Qed.

(** With the button enabled, the submission posts the form. *)
Lemma enabled_submit_posts w :
  submitDisabled (state w) = false ->
  calls (submit E w) =
  PostGenerateVideo
    {| body_prompt := prompt (state w);
       body_referenceImages := referenceImagesOf (images (state w)) |}
  :: calls w.
Proof.
  intros Hd. unfold submitDisabled in Hd.
  rewrite hasImages_referenceImagesOf, negb_involutive, !orb_false_iff in Hd.
  destruct Hd as [[_ H1] H2].
  rewrite submit_unfold.
  assert (H : calls (handleSubmit w) =
              PostGenerateVideo
                {| body_prompt := prompt (state w);
                   body_referenceImages := referenceImagesOf (images (state w)) |}
              :: calls w).
  { unfold handleSubmit. cbn [state prompt images setSubmitting setErrorMessage
      setStubMessage setOperationId setOperationStatus withState].
    rewrite H1, H2. reflexivity. }
  destruct (operationId (state w)); rewrite ?clearPollTimer_calls; exact H.
Qed.

Lemma Slots_mounted : Slots mounted.
Proof.
  split.
  - reflexivity.
  - unfold mounted, initialImages. cbn [state images MAX_REFERENCE_IMAGES seq map].
    repeat constructor; apply slot_name_noWhiteSpace.
  - constructor.
Qed.

Lemma act_Slots w g w' : Slots w -> act E w g = Some w' -> Slots w'.
Proof.
  intros [Hids Hnames Hposted] Ha.
  apply act_step in Ha as (ev & Hev & Hstep).
  destruct g as [value | index fileList read | index | | ev0]; simpl in Hev.
  - injection Hev as <-. injection Hstep as <-. split; assumption.
  - injection Hev as <-. injection Hstep as <-. split; cbn.
    + destruct (handleImageChange_updateSlot index fileList read (images (state w)))
        as (f & Hf & ->).
      rewrite updateSlot_keeps by exact Hf. exact Hids.
    + apply handleImageChange_names. exact Hnames.
    + exact Hposted.
  - injection Hev as <-. injection Hstep as <-. split; cbn.
    + unfold resetImage. rewrite updateSlot_keeps by reflexivity. exact Hids.
    + apply resetImage_names. exact Hnames.
    + exact Hposted.
  - destruct (submitDisabled (state w)) eqn:Hd; [discriminate|].
    injection Hev as <-.
    assert (Him : images (state w') = images (state w))
      by (apply (step_images E w Submit w' Hstep); discriminate).
    apply step_Submit in Hstep as [_ Hw'].
    split; [rewrite Him; exact Hids | rewrite Him; exact Hnames |].
    rewrite Hw', (enabled_submit_posts w Hd), posts_Post.
    constructor; [|exact Hposted].
    apply submitDisabled_false in Hd as (_ & H1 & H2).
    apply is_empty_false in H1. apply Nat.eqb_neq in H2.
    pose proof (referenceImagesOf_length (images (state w))) as Hlen.
    assert (Hl : length (images (state w)) = MAX_REFERENCE_IMAGES).
    { rewrite <- (length_map id), Hids, length_seq. reflexivity. }
    split; cbn.
    + exact H1.
    + lia.
    + lia.
    + apply referenceImagesOf_names. exact Hnames.
    + apply referenceImagesOf_urls.
  - assert (Hne : ev <> Submit /\ forall v, ev <> ChangeImages v).
    { destruct ev0; try discriminate; injection Hev as <-; split; try discriminate;
        intros v; discriminate. }
    destruct Hne as [Hns Hni]. split.
    + rewrite (step_images E w ev w' Hstep Hni). exact Hids.
    + rewrite (step_images E w ev w' Hstep Hni). exact Hnames.
    + rewrite (step_posts E w ev w' Hstep Hns). exact Hposted.
Qed.

Lemma usable_Slots w : usable E w -> Slots w.
Proof.
  intros [gs Hs]. revert Hs.
  assert (H : forall w0, Slots w0 -> session E w0 gs = Some w -> Slots w).
  { induction gs as [|g gs IH]; simpl; intros w0 H0 Hs.
    - injection Hs as <-. exact H0.
    - destruct (act E w0 g) as [w1|] eqn:Ha; [|discriminate].
      apply (IH w1); [|exact Hs]. eapply act_Slots; eassumption. }
  apply H, Slots_mounted.
Qed.

(** X11.  However the user drives the page, it keeps its two slots with
    the ids 0 and 1, no image name holds white space, and every POST it
    has issued carries a prompt that is not blank and one or two images,
    each with a name without white space and a data URL that is not
    empty. *)
Theorem page_keeps_two_slots_and_posts_valid_bodies (w : World) :
  usable E w ->
  map id (images (state w)) = [0; 1]%nat /\
  Forall (fun image => noWhiteSpace (name image)) (images (state w)) /\
  forall body,
    In body (posts (calls w)) ->
    trim (body_prompt body) <> [] /\
    (1 <= length (body_referenceImages body) <= 2)%nat /\
    Forall (fun image => noWhiteSpace (ref_name image) /\ ref_dataUrl image <> [])
      (body_referenceImages body).
Proof.
  intros Hw. destruct (usable_Slots w Hw) as [Hids Hnames Hposted].
  repeat split; try assumption.
  - rewrite Forall_forall in Hposted.
    apply (posted_prompt _ (Hposted body (proj2 (list_elem_of_In _ _) H))).
  - rewrite Forall_forall in Hposted.
    apply (posted_some _ (Hposted body (proj2 (list_elem_of_In _ _) H))).
  - rewrite Forall_forall in Hposted.
    apply (posted_few _ (Hposted body (proj2 (list_elem_of_In _ _) H))).
  - rewrite Forall_forall in Hposted.
    destruct (Hposted body (proj2 (list_elem_of_In _ _) H)) as [_ _ _ Hn Hu].
    rewrite Forall_forall in Hn, Hu. apply Forall_forall. intros image Hi. auto.
Qed.

(** X21.  What the page posts, the proxy accepts: for every POST the
    page has issued, [POST] on that body does not answer 400, and calls
    the provider once, with the trimmed prompt and with all the images
    of the body, none cut off. *)
Theorem page_requests_pass_the_proxy
    (generateVideoWithGoogle :
       @GenerateVideoRoute.ProviderCall ReferenceImage ->
       Completion GenerateVideoRoute.GenerateVideoResponse)
    (w : World) (body : SubmitBody) :
  usable E w ->
  In body (posts (calls w)) ->
  snd (GenerateVideoRoute.POST generateVideoWithGoogle (Normal (requestOf body))) =
    [ {| GenerateVideoRoute.call_prompt := trim (body_prompt body);
         GenerateVideoRoute.call_referenceImages := body_referenceImages body |} ] /\
  GenerateVideoRoute.status
    (fst (GenerateVideoRoute.POST generateVideoWithGoogle (Normal (requestOf body)))) <> 400%nat.
Proof.
  intros Hw Hb. destruct (usable_Slots w Hw) as [_ _ Hposted].
  rewrite Forall_forall in Hposted.
  destruct (Hposted body (proj2 (list_elem_of_In _ _) Hb)) as [Hp Hs Hf _ _].
  unfold MAX_REFERENCE_IMAGES in Hf.
  unfold GenerateVideoRoute.POST, requestOf. simpl.
  apply is_empty_false in Hp. rewrite Hp.
  rewrite take_ge by lia.
  assert (Hz : Nat.eqb (length (body_referenceImages body)) 0 = false)
    by (apply Nat.eqb_neq; lia).
  rewrite Hz.
  destruct (generateVideoWithGoogle _); cbn; split; try reflexivity; discriminate.
Qed.

(** X22.  Clear puts a slot back as the page mounted it: whatever was
    chosen before, the slot [resetImage] leaves is the initial one. *)
Theorem clear_restores_the_initial_slot (w : World) (index : nat) :
  usable E w ->
  (index < MAX_REFERENCE_IMAGES)%nat ->
  resetImage index (images (state w)) !! index = initialImages !! index.
Proof.
  intros Hw Hi. destruct (usable_Slots w Hw) as [Hids _ _].
  assert (Hl : exists image, images (state w) !! index = Some image /\ id image = index).
  { assert (H : map id (images (state w)) !! index = Some index).
    { rewrite Hids. apply lookup_seq. lia. }
    rewrite map_lookup in H.
    destruct (images (state w) !! index) as [image|]; [|discriminate].
    injection H as H. eauto. }
  destruct Hl as (image & Hl & Hid).
  unfold resetImage. rewrite updateSlot_lookup, Hl. cbn.
  case_decide; [|congruence].
  rewrite Hid. unfold MAX_REFERENCE_IMAGES in Hi.
  destruct index as [|[|index]]; [reflexivity | reflexivity | lia].
Qed.

End Driven.

(* ===================================================================== *)
(** * The further theorems at the example sessions *)
(* ===================================================================== *)


Lemma pickingSession_usable : usable v8 (afterSession pickingSession).
Proof. exists pickingSession. vm_compute. reflexivity. Qed.

(** The user of [pickingSession] ends with the image in the second slot,
    its name sanitized, the refusal of the text file shown beside it, and
    one POST under way. *)
Example pickingSession_outcome :
  images (state (afterSession pickingSession)) =
  [ {| id := 0; name := lit "reference-image-1"; dataUrl := None; error := None |};
    {| id := 1; name := lit "my-beach-photo.png";
       dataUrl := Some (lit "data:image/png;base64,AAAA");
       error := Some (lit "Please choose an image file.") |} ] /\
  posts (calls (afterSession pickingSession)) =
  [ {| body_prompt := lit "  waves at dusk ";
       body_referenceImages :=
         [ {| ref_name := lit "my-beach-photo.png";
              ref_dataUrl := lit "data:image/png;base64,AAAA" |} ] |} ].
Proof. vm_compute. split; reflexivity. Qed.

Lemma status_route_decodes_the_handle_example :
  encodeURIComponent (lit "operations/abc 1") = Some (lit "operations%2Fabc%201") /\
  OperationsRoute.GET v8 OperationsRoute.finishedProvider
    (Normal (lit "operations%2Fabc%201")) =
  ({| OperationsRoute.status := 200;
      OperationsRoute.body := OperationsRoute.StatusBody (JObj [(lit "done", JBool true)]) |},
   [lit "operations/abc 1"]) /\
  snd (OperationsRoute.GET v8 OperationsRoute.finishedProvider (Normal (lit "op%2F123"))) =
  [lit "op/123"] /\
  snd (OperationsRoute.GET v8 OperationsRoute.finishedProvider (Normal (lit "op-123"))) =
  [lit "op-123"] /\
  OperationsRoute.GET v8 OperationsRoute.finishedProvider (Normal (lit "op-123%")) =
  ({| OperationsRoute.status := 500;
      OperationsRoute.body := OperationsRoute.ErrorBody (lit "URI malformed") |},
   []).
Proof.
  destruct (status_route_decodes_the_handle v8 OperationsRoute.finishedProvider)
    as (_ & _ & H3 & H4 & H5 & H6).
  split; [vm_compute; reflexivity|].
  split.
  { rewrite (H3 (lit "operations/abc 1") (lit "operations%2Fabc%201")).
    - reflexivity.
    - unfold wellFormed. compute_done.
    - vm_compute. discriminate.
    - vm_compute. reflexivity. }
  split.
  { pose proof (H5 (lit "op") (lit "123") 47) as H.
    vm_compute in H. vm_compute. apply H.
    - intros [C|[C|[]]]; discriminate C.
    - intros [C|[C|[C|[]]]]; discriminate C.
    - reflexivity. }
  split.
  { pose proof (H4 111 (lit "p-123")) as H.
    vm_compute in H. vm_compute. apply H.
    intros [C|[C|[C|[C|[C|[C|[]]]]]]]; discriminate C. }
  pose proof (H6 (lit "op-123")) as H.
  vm_compute in H. vm_compute. exact H.
Defined.

Lemma status_route_recovers_the_handle_example :
  snd (OperationsRoute.GET v8 OperationsRoute.finishedProvider (Normal (lit "op-123"))) =
  [lit "op-123"].
Proof.
  destruct (status_route_recovers_the_handle v8 OperationsRoute.finishedProvider
              mounted (lit "op-123") (lit "op-123")) as [_ H].
  - unfold wellFormed. vm_compute. repeat constructor.
  - vm_compute. discriminate.
  - vm_compute. reflexivity.
  - exact H.
Defined.

Lemma encoded_handle_is_one_segment_example :
  ~ In 47 (lit "operations%2Fabc%201").
Proof.
  destruct (encoded_handle_is_one_segment (lit "operations/abc 1")
              (lit "operations%2Fabc%201")) as (_ & H & _).
  - unfold wellFormed. vm_compute. repeat constructor.
  - vm_compute. reflexivity.
  - exact H.
Defined.

Lemma refused_file_keeps_the_image_example :
  referenceImagesOf
    (handleImageChange 0 (Some [notes]) (Normal (lit "data:text/plain;base64,AAAA")) [sunset]) =
  referenceImagesOf [sunset].
Proof.
  destruct (refused_file_keeps_the_image 0 notes []
              (Normal (lit "data:text/plain;base64,AAAA")) [sunset]) as [H _].
  - left. vm_compute. reflexivity.
  - exact H.
Defined.

Lemma page_keeps_two_slots_and_posts_valid_bodies_example :
  map id (images (state (afterSession pickingSession))) = [0; 1]%nat.
Proof.
  destruct (page_keeps_two_slots_and_posts_valid_bodies v8 (afterSession pickingSession))
    as [H _].
  - exists pickingSession. vm_compute. reflexivity.
  - exact H.
Defined.

Lemma submit_button_matches_validation_example :
  submitting (state (submit v8 (afterSession [TypePrompt (lit "dusk")]))) = false /\
  calls (submit v8 (afterSession [TypePrompt (lit "dusk")])) = [].
Proof.
  pose proof (submit_button_matches_validation v8
                (afterSession [TypePrompt (lit "dusk")])) as H.
  assert (Hs : submitting (state (afterSession [TypePrompt (lit "dusk")])) = false)
    by (vm_compute; reflexivity).
  specialize (H Hs).
  assert (Hd : submitDisabled (state (afterSession [TypePrompt (lit "dusk")])) = true)
    by (vm_compute; reflexivity).
  rewrite Hd in H. destruct H as (H1 & _ & H3 & _).
  split; [exact H3 | exact H1].
Defined.

Lemma success_reply_starts_polling_example :
  polling (state (after deferredSession)) = true /\
  pollTimerRef (after deferredSession) = Some 1%positive.
Proof.
  destruct (success_reply_starts_polling v8
              (after submittedSession) (after deferredSession) 0
              (lit "op-123") (lit "op-123") (JObj [(lit "done", JBool false)]))
    as (_ & _ & _ & H4 & _ & _ & H7 & _).
  - exists submittedSession. vm_compute. reflexivity.
  - vm_compute. discriminate.
  - vm_compute. reflexivity.
  - vm_compute. reflexivity.
  - split; [exact H4 | exact H7].
Defined.

Lemma submission_clears_the_previous_operation_example :
  operationId (state (after (deferredSession ++ [Submit]))) = None /\
  intervals (after (deferredSession ++ [Submit])) = ∅ /\
  polling (state (after (deferredSession ++ [Submit]))) = polling (state (after deferredSession)).
Proof.
  destruct (submission_clears_the_previous_operation v8
              (after deferredSession) (after (deferredSession ++ [Submit])))
    as (H1 & _ & _ & _ & H5 & H6 & _).
  - exists deferredSession. vm_compute. reflexivity.
  - vm_compute. reflexivity.
  - exact (conj H1 (conj H5 H6)).
Defined.

Lemma failed_submission_is_reported_example :
  submitting
    (state (after (submittedSession ++
                   [SubmitSettled 0 (SubmitNotOk 500 (Throw NonError))]))) = false /\
  operationId
    (state (after (submittedSession ++
                   [SubmitSettled 0 (SubmitNotOk 500 (Throw NonError))]))) = None.
Proof.
  destruct (failed_submission_is_reported v8
              (after submittedSession)
              (after (submittedSession ++
                      [SubmitSettled 0 (SubmitNotOk 500 (Throw NonError))]))
              0 (SubmitNotOk 500 (Throw NonError)))
    as (_ & H2 & H3 & _).
  - exists submittedSession. vm_compute. reflexivity.
  - intros result. discriminate.
  - vm_compute. reflexivity.
  - exact (conj H2 H3).
Defined.

Lemma stub_and_operation_exclude_each_other_example :
  stubMessage (state (after stubSession)) = None \/
  operationId (state (after stubSession)) = None.
Proof.
  destruct (stub_and_operation_exclude_each_other v8 (after stubSession)) as [H _].
  - exists stubSession. vm_compute. reflexivity.
  - exact H.
Defined.

Lemma unencodable_handle_polls_nothing_example :
  polling
    (state (after (submittedSession ++
                   [SubmitSettled 0
                      (SubmitOk (Normal (GenerateVideoSuccess [55357] JNull)))]))) = false /\
  pollTimerRef
    (after (submittedSession ++
            [SubmitSettled 0
               (SubmitOk (Normal (GenerateVideoSuccess [55357] JNull)))])) = Some 1%positive.
Proof.
  destruct (unencodable_handle_polls_nothing v8
              (after submittedSession)
              (after (submittedSession ++
                      [SubmitSettled 0
                         (SubmitOk (Normal (GenerateVideoSuccess [55357] JNull)))]))
              0 [55357] JNull)
    as (H1 & _ & _ & H4 & _).
  - exists submittedSession. vm_compute. reflexivity.
  - vm_compute. reflexivity.
  - vm_compute. reflexivity.
  - exact (conj H1 H4).
Defined.

Lemma one_post_per_submission_example :
  (length (posts (calls (after overlappingSession))) <= 1)%nat.
Proof.
  pose proof (one_post_per_submission v8 overlappingSession mounted
                (after overlappingSession)) as H.
  assert (Hr : run v8 mounted overlappingSession = Some (after overlappingSession))
    by (vm_compute; reflexivity).
  specialize (H Hr).
  assert (Hn : (length (posts (calls mounted)) +
                length (List.filter isSubmit overlappingSession) = 1)%nat)
    by (vm_compute; reflexivity).
  rewrite Hn in H. exact H.
Defined.

Lemma no_handle_no_polling_example :
  pollTimerRef (after stubSession) = None /\ intervals (after stubSession) = ∅.
Proof.
  destruct (no_handle_no_polling v8 (after stubSession)) as (H1 & H2 & _).
  - exists stubSession. vm_compute. reflexivity.
  - vm_compute. reflexivity.
  - exact (conj H1 H2).
Defined.

Lemma unmount_leaves_no_timer_example :
  intervals (unmount (after deferredSession)) = ∅.
Proof.
  destruct (unmount_leaves_no_timer v8 (after deferredSession)) as [H _].
  - exists deferredSession. vm_compute. reflexivity.
  - exact H.
Defined.

Lemma page_requests_pass_the_proxy_example :
  GenerateVideoRoute.status
    (fst (GenerateVideoRoute.POST GenerateVideoRoute.stubProvider
            (Normal (requestOf
                       {| body_prompt := lit "  waves at dusk ";
                          body_referenceImages :=
                            [ {| ref_name := lit "my-beach-photo.png";
                                 ref_dataUrl := lit "data:image/png;base64,AAAA" |} ] |})))) <>
  400%nat.
Proof.
  destruct (page_requests_pass_the_proxy v8 GenerateVideoRoute.stubProvider
              (afterSession pickingSession)
              {| body_prompt := lit "  waves at dusk ";
                 body_referenceImages :=
                   [ {| ref_name := lit "my-beach-photo.png";
                        ref_dataUrl := lit "data:image/png;base64,AAAA" |} ] |})
    as [_ H].
  - exists pickingSession. vm_compute. reflexivity.
  - vm_compute. left. reflexivity.
  - exact H.
Defined.

Lemma clear_restores_the_initial_slot_example :
  resetImage 1 (images (state (afterSession pickingSession))) !! 1%nat =
  initialImages !! 1%nat.
Proof.
  apply (clear_restores_the_initial_slot v8 (afterSession pickingSession) 1).
  - exists pickingSession. vm_compute. reflexivity.
  - unfold MAX_REFERENCE_IMAGES. lia.
Defined.
